(** * Key-Value Form Encoding (OpenID Authentication 2.0): package keyvalue

    A shallow embedding of [keyvalue.go] (type [Form], type [SignedForm])
    and of its twin file declaring type [Message], together with the parts
    of Go's [unicode/utf8], [unicode], [strings] and [bytes] packages that
    the two files call.

    Conventions.
    - A Go [string] is a sequence of bytes: it is a Rocq [string], one
      [ascii] per byte.  The [unicode/utf8] functions work on the byte
      values, [bytes s : list Z].
    - A [rune] (int32) and a [uint8] are [Z]; the few places where the Go
      code relies on the width are written out.
    - An [int] holding a length or a sum of lengths of strings that are in
      memory is a [Z]; such sums stay below 2^63.
    - A [map[string]string] is [option (gmap string string)], [None] being
      the nil map.  [range] over a map yields its entries in an order the
      language leaves open: a loop over a map takes the order as an
      argument, and a method is the relation "for some order".
    - A run-time panic is the [Panic] outcome. *)

From Stdlib Require Import ZArith List Ascii String Bool Lia.
From stdpp Require Import base gmap strings list fin_maps.

Local Open Scope Z_scope.

(** ** Outcomes: a value or a run-time panic *)

Inductive outcome (A : Type) : Type :=
| Ret (a : A)
| Panic (msg : string).
Arguments Ret {A} a.
Arguments Panic {A} msg.

Definition bind {A B : Type} (o : outcome A) (k : A → outcome B) : outcome B :=
  match o with
  | Ret a => k a
  | Panic msg => Panic msg
  end.

Notation "'let!' x ':=' o 'in' k" := (bind o (fun x => k))
  (at level 10, x name, o at level 100, k at level 200).

(** ** Byte view of a Go string *)

(** [s[i]] as a number, for one byte. *)
Definition byte_val (a : ascii) : Z := Z.of_N (N_of_ascii a).

(** The bytes of a string, in order. *)
Fixpoint bytes (s : string) : list Z :=
  match s with
  | EmptyString => []
  | String a s' => byte_val a :: bytes s'
  end.

(** The string made of the given bytes (each taken modulo 256). *)
Fixpoint of_bytes (p : list Z) : string :=
  match p with
  | [] => EmptyString
  | b :: p' => String (ascii_of_N (Z.to_N (b mod 256))) (of_bytes p')
  end.

(** [len(s)] *)
Definition len (s : string) : Z := Z.of_nat (String.length s).

(** [p[i]]; reads are only made inside the bounds. *)
Definition at_ (p : list Z) (i : Z) : Z := nth (Z.to_nat i) p 0.

(** [p[lo:hi]] *)
Definition slice (p : list Z) (lo hi : Z) : list Z :=
  firstn (Z.to_nat (hi - lo)) (skipn (Z.to_nat lo) p).

(** Conversions between the fixed-width integer types. *)
Definition to_int32 (z : Z) : Z := (z + 2 ^ 31) mod 2 ^ 32 - 2 ^ 31.
Definition to_uint32 (z : Z) : Z := z mod 2 ^ 32.
Definition to_uint16 (z : Z) : Z := z mod 2 ^ 16.
Definition to_byte (z : Z) : Z := z mod 2 ^ 8.

(** ** Package unicode/utf8 *)

Module utf8.

Definition RuneError : Z := 0xFFFD.
Definition RuneSelf : Z := 0x80.
Definition MaxRune : Z := 0x10FFFF.
Definition UTFMax : Z := 4.

Definition surrogateMin : Z := 0xD800.
Definition surrogateMax : Z := 0xDFFF.

Definition t1 : Z := 0x00.
Definition tx : Z := 0x80.
Definition t2 : Z := 0xC0.
Definition t3 : Z := 0xE0.
Definition t4 : Z := 0xF0.
Definition t5 : Z := 0xF8.

Definition maskx : Z := 0x3F.
Definition mask2 : Z := 0x1F.
Definition mask3 : Z := 0x0F.
Definition mask4 : Z := 0x07.

Definition rune1Max : Z := 2 ^ 7 - 1.
Definition rune2Max : Z := 2 ^ 11 - 1.
Definition rune3Max : Z := 2 ^ 16 - 1.

Definition locb : Z := 0x80.
Definition hicb : Z := 0xBF.

(** First nibble: index into [acceptRanges], or F for the one-byte cases.
    Second nibble: the length, or the status of a one-byte case. *)
Definition xx : Z := 0xF1.
Definition as_ : Z := 0xF0.
Definition s1 : Z := 0x02.
Definition s2 : Z := 0x13.
Definition s3 : Z := 0x03.
Definition s4 : Z := 0x23.
Definition s5 : Z := 0x34.
Definition s6 : Z := 0x04.
Definition s7 : Z := 0x44.

(** Information about the first byte of a UTF-8 sequence. *)
Definition first_table : list Z :=
  repeat as_ 128 ++                                    (* 0x00-0x7F *)
  repeat xx 64 ++                                      (* 0x80-0xBF *)
  [xx; xx] ++ repeat s1 14 ++                          (* 0xC0-0xCF *)
  repeat s1 16 ++                                      (* 0xD0-0xDF *)
  [s2; s3; s3; s3; s3; s3; s3; s3;
   s3; s3; s3; s3; s3; s4; s3; s3] ++                  (* 0xE0-0xEF *)
  [s5; s6; s6; s6; s7; xx; xx; xx;
   xx; xx; xx; xx; xx; xx; xx; xx].                    (* 0xF0-0xFF *)

Definition first (b : Z) : Z := nth (Z.to_nat b) first_table xx.

Record acceptRange : Type := mkRange { lo : Z; hi : Z }.

Definition acceptRanges (i : Z) : acceptRange :=
  if i =? 0 then mkRange locb hicb
  else if i =? 1 then mkRange 0xA0 hicb
  else if i =? 2 then mkRange locb 0x9F
  else if i =? 3 then mkRange 0x90 hicb
  else if i =? 4 then mkRange locb 0x8F
  else mkRange 0 0.

(** [RuneStart]: the byte is not a continuation byte. *)
Definition RuneStart (b : Z) : bool := negb (Z.land b 0xC0 =? 0x80).

(** [DecodeRune] / [DecodeRuneInString]: the first rune of [p] and its
    width in bytes; [(RuneError, 0)] for the empty input and
    [(RuneError, 1)] for an invalid encoding. *)
Definition DecodeRune (p : list Z) : Z * Z :=
  let n := Z.of_nat (length p) in
  if n <? 1 then (RuneError, 0)
  else
    let s0 := at_ p 0 in
    let x := first s0 in
    if as_ <=? x then
      (* rune(x) << 31 >> 31 : all zeros for [as_], all ones for [xx] *)
      let mask := Z.shiftr (to_int32 (Z.shiftl x 31)) 31 in
      (Z.lor (Z.land s0 (Z.lnot mask)) (Z.land RuneError mask), 1)
    else
      let sz := Z.land x 7 in
      let accept := acceptRanges (Z.shiftr x 4) in
      if n <? sz then (RuneError, 1)
      else
        let b1 := at_ p 1 in
        if (b1 <? lo accept) || (hi accept <? b1) then (RuneError, 1)
        else if sz <=? 2 then
          (Z.lor (Z.shiftl (Z.land s0 mask2) 6) (Z.land b1 maskx), 2)
        else
          let b2 := at_ p 2 in
          if (b2 <? locb) || (hicb <? b2) then (RuneError, 1)
          else if sz <=? 3 then
            (Z.lor (Z.lor (Z.shiftl (Z.land s0 mask3) 12)
                          (Z.shiftl (Z.land b1 maskx) 6))
                   (Z.land b2 maskx), 3)
          else
            let b3 := at_ p 3 in
            if (b3 <? locb) || (hicb <? b3) then (RuneError, 1)
            else
              (Z.lor (Z.lor (Z.lor (Z.shiftl (Z.land s0 mask4) 18)
                                   (Z.shiftl (Z.land b1 maskx) 12))
                            (Z.shiftl (Z.land b2 maskx) 6))
                     (Z.land b3 maskx), 4).

(** The loop [for start--; start >= lim; start-- { if RuneStart(p[start])
    { break } }] of [DecodeLastRune]; [k] is the number of positions from
    [lim] up to the current [start], so the loop has [k] tests left.  The
    result is the value of [start] after the loop. *)
Fixpoint scan_back (p : list Z) (lim : Z) (k : nat) : Z :=
  match k with
  | O => lim - 1
  | S k' =>
      let start := lim + Z.of_nat k' in
      if RuneStart (at_ p start) then start else scan_back p lim k'
  end.

(** [DecodeLastRune] / [DecodeLastRuneInString]: the last rune of [p] and
    its width. *)
Definition DecodeLastRune (p : list Z) : Z * Z :=
  let end_ := Z.of_nat (length p) in
  if end_ =? 0 then (RuneError, 0)
  else
    let start := end_ - 1 in
    let r := at_ p start in
    if r <? RuneSelf then (r, 1)
    else
      let lim := end_ - UTFMax in
      let lim := if lim <? 0 then 0 else lim in
      let start := scan_back p lim (Z.to_nat (start - 1 - lim + 1)) in
      let start := if start <? 0 then 0 else start in
      let '(r, size) := DecodeRune (slice p start end_) in
      if negb (start + size =? end_) then (RuneError, 1) else (r, size).

(** [Valid] / [ValidString].  The loop index [i] is kept as the rest
    [p[i:]] of the input: [i+size > n] reads [size > len(p[i:])], and
    [p[i+1]] is the second byte of the rest.  (The eight-bytes-at-a-time
    ASCII fast path of recent Go versions is the same loop unrolled.) *)
Fixpoint Valid (p : list Z) : bool :=
  match p with
  | [] => true
  | si :: p1 =>
      if si <? RuneSelf then Valid p1
      else
        let x := first si in
        if x =? xx then false
        else
          let size := Z.land x 7 in
          if Z.of_nat (length p) <? size then false
          else
            let accept := acceptRanges (Z.shiftr x 4) in
            match p1 with
            | [] => false
            | c1 :: p2 =>
                if (c1 <? lo accept) || (hi accept <? c1) then false
                else if size =? 2 then Valid p2
                else
                  match p2 with
                  | [] => false
                  | c2 :: p3 =>
                      if (c2 <? locb) || (hicb <? c2) then false
                      else if size =? 3 then Valid p3
                      else
                        match p3 with
                        | [] => false
                        | c3 :: p4 =>
                            if (c3 <? locb) || (hicb <? c3) then false
                            else Valid p4
                        end
                  end
            end
  end.

(** [RuneLen]: the number of bytes of the encoding of [r], -1 when [r] is
    not encodable. *)
Definition RuneLen (r : Z) : Z :=
  if r <? 0 then -1
  else if r <=? rune1Max then 1
  else if r <=? rune2Max then 2
  else if (surrogateMin <=? r) && (r <=? surrogateMax) then -1
  else if r <=? rune3Max then 3
  else if r <=? MaxRune then 4
  else -1.

(** [AppendRune(nil, r)]: the bytes of the UTF-8 encoding of [r]. *)
Definition EncodeRune (r : Z) : list Z :=
  let i := to_uint32 r in
  let enc3 (r : Z) :=
    [Z.lor t3 (to_byte (Z.shiftr r 12));
     Z.lor tx (Z.land (to_byte (Z.shiftr r 6)) maskx);
     Z.lor tx (Z.land (to_byte r) maskx)] in
  if i <=? rune1Max then [to_byte r]
  else if i <=? rune2Max then
    [Z.lor t2 (to_byte (Z.shiftr r 6));
     Z.lor tx (Z.land (to_byte r) maskx)]
  else if (MaxRune <? i) || ((surrogateMin <=? i) && (i <=? surrogateMax))
  then enc3 RuneError
  else if i <=? rune3Max then enc3 r
  else
    [Z.lor t4 (to_byte (Z.shiftr r 18));
     Z.lor tx (Z.land (to_byte (Z.shiftr r 12)) maskx);
     Z.lor tx (Z.land (to_byte (Z.shiftr r 6)) maskx);
     Z.lor tx (Z.land (to_byte r) maskx)].

Definition DecodeRuneInString (s : string) : Z * Z := DecodeRune (bytes s).
Definition DecodeLastRuneInString (s : string) : Z * Z :=
  DecodeLastRune (bytes s).
Definition ValidString (s : string) : bool := Valid (bytes s).

End utf8.

(** ** Package unicode: white space *)

Module unicode.

Definition MaxLatin1 : Z := 0xFF.
Definition linearMax : nat := 18.

Record Range16 : Type := mkRange16 { Lo : Z; Hi : Z; Stride : Z }.

(** [White_Space.R16]; [White_Space.R32] is empty and [LatinOffset] is 2. *)
Definition White_Space_R16 : list Range16 :=
  [ mkRange16 0x0009 0x000d 1;
    mkRange16 0x0020 0x0085 101;
    mkRange16 0x00a0 0x1680 5600;
    mkRange16 0x2000 0x200a 1;
    mkRange16 0x2028 0x2029 1;
    mkRange16 0x202f 0x205f 48;
    mkRange16 0x3000 0x3000 1 ].
Definition White_Space_LatinOffset : nat := 2.

(** [is16] on a table of at most [linearMax] ranges: the linear scan. *)
Fixpoint is16 (ranges : list Range16) (r : Z) : bool :=
  match ranges with
  | [] => false
  | range_ :: rest =>
      if r <? Lo range_ then false
      else if r <=? Hi range_ then
        (Stride range_ =? 1) || ((r - Lo range_) mod Stride range_ =? 0)
      else is16 rest r
  end.

(** [isExcludingLatin(White_Space, r)] *)
Definition isExcludingLatin_White_Space (r : Z) : bool :=
  let r16 := White_Space_R16 in
  let off := White_Space_LatinOffset in
  if (off <? length r16)%nat
     && (to_uint32 r <=? to_uint32 (Hi (List.last r16 (mkRange16 0 0 0))))
  then is16 (skipn off r16) (to_uint16 r)
  else false.

(** [IsSpace]: the rune is a space character as defined by Unicode's
    White Space property; in the Latin-1 range these are
    tab, newline, vertical tab, form feed, carriage return, space,
    U+0085 (NEL) and U+00A0 (NBSP). *)
Definition IsSpace (r : Z) : bool :=
  if to_uint32 r <=? MaxLatin1 then
    (r =? 0x09) || (r =? 0x0A) || (r =? 0x0B) || (r =? 0x0C) || (r =? 0x0D)
    || (r =? 0x20) || (r =? 0x85) || (r =? 0xA0)
  else isExcludingLatin_White_Space r.

End unicode.

(** ** Package strings *)

Module strings.

(** [IndexByte(s, c)]: the index of the first byte [c] of [s], or -1. *)
Fixpoint IndexByte_from (p : list Z) (c : Z) (i : Z) : Z :=
  match p with
  | [] => -1
  | b :: p' => if b =? c then i else IndexByte_from p' c (i + 1)
  end.

Definition IndexByte (s : string) (c : Z) : Z := IndexByte_from (bytes s) c 0.

(** [ContainsRune(s, r)] is [IndexRune(s, r) >= 0], and for
    [0 <= r < RuneSelf] [IndexRune(s, r)] is [IndexByte(s, byte(r))].  The
    package only asks for the runes newline and colon, so this is the one
    case of [IndexRune] that is modelled. *)
Definition ContainsRune (s : string) (r : Z) : bool :=
  0 <=? IndexByte s (to_byte r).

End strings.

(** ** Package bytes: Buffer *)

Module Buffer.

(** The unread contents of the buffer; capacity is not observable. *)
Record t : Type := mk { contents : list Z }.

(** [var buf bytes.Buffer] *)
Definition empty : t := mk [].

Definition Len (b : t) : Z := Z.of_nat (length (contents b)).

(** [Grow(n)] panics for a negative [n] and otherwise only reserves room. *)
Definition Grow (b : t) (n : Z) : outcome t :=
  if n <? 0 then Panic "bytes.Buffer.Grow: negative count" else Ret b.

Definition WriteString (b : t) (s : string) : t := mk (contents b ++ bytes s).

(** [WriteRune]: one byte below [RuneSelf], the UTF-8 encoding otherwise. *)
Definition WriteRune (b : t) (r : Z) : t :=
  if to_uint32 r <? utf8.RuneSelf then mk (contents b ++ [to_byte r])
  else mk (contents b ++ utf8.EncodeRune r).

(** [buf.String()] *)
Definition String (b : t) : string := of_bytes (contents b).

End Buffer.

(** ** Nil pointers and nil interfaces *)

(** The message of the run-time panic raised by a field access or a
    method call through nil. *)
Definition nil_dereference : string :=
  "invalid memory address or nil pointer dereference".

(** ** Package io: writers *)

Module io.

(** An error value, by its message. *)
Definition error : Type := string.

(** [io.Writer]: [Write(p)] consumes bytes and either panics or leaves the
    writer in a new state and returns the number of bytes written and an
    error, [None] for nil. *)
Class Writer (W : Type) : Type :=
  Write : W → list Z → outcome (W * (Z * option error)).

(** [io.WriteString(w, s)]: the bytes of [s] are handed to the writer in one
    call (to its [WriteString] method when it has one, which for
    [bytes.Buffer] appends the same bytes as [Write]). The writer is an
    interface value: on the nil interface, [None], the call panics. *)
Definition WriteString {W : Type} `{Writer W} (w : option W) (s : string)
  : outcome (W * (Z * option error)) :=
  match w with
  | None => Panic nil_dereference
  | Some w => Write w (bytes s)
  end.

End io.


(** ** Go maps from string to string *)

(** A [map[string]string] value: [None] is the nil map. *)
Abbreviation gomap := (option (gmap string string)).

(** The entries of a map; the nil map has none. *)
Definition entries (f : gomap) : gmap string string := default ∅ f.

(** [v, ok := f[key]]: reading a nil map finds nothing. *)
Definition index (f : gomap) (key : string) : option string := entries f !! key.

(** [len(f)] *)
Definition maplen (f : gomap) : Z := Z.of_nat (size (entries f)).

(** [f == nil] *)
Definition is_nil (f : gomap) : bool :=
  match f with None => true | Some _ => false end.

(** [f[key] = value]: panics on a nil map, updates in place otherwise; the
    result is the map the caller holds afterwards. *)
Definition assign (f : gomap) (key value : string) : outcome gomap :=
  match f with
  | None => Panic "assignment to entry in nil map"
  | Some m => Ret (Some (<[key := value]> m))
  end.

(** [delete(f, key)]: a no-op on a nil map or an absent key. *)
Definition delete_key (f : gomap) (key : string) : gomap :=
  match f with
  | None => None
  | Some m => Some (delete key m)
  end.

(** The sequences of entries that [for k, v := range f] may produce: every
    entry once, in any order. *)
Definition ranges (f : gomap) (order : list (string * string)) : Prop :=
  order ≡ₚ map_to_list (entries f).

(** ** Package keyvalue, file keyvalue.go: Form and SignedForm *)

Module keyvalue.

(** Colon rune. *)
Definition colon : Z := 0x3A.
(** Comma rune. *)
Definition comma : Z := 0x2C.
(** Newline string. *)
Definition newline : string := String "010"%char EmptyString.
(** OpenID prefix *)
Definition prefix : string := "openid.".

(** Form maps a string key to a string value. *)
Abbreviation Form := gomap.

(** The errors [Validate] builds with [fmt.Errorf], named after their
    messages, with the string the message quotes. *)
Inductive error : Type :=
| EmptyValueForKey (k : string)
| KeyNotValidUTF8
| ValueNotValidUTF8
| KeyContainsNewlineOrColon (k : string)
| WhitespaceAtEndOfKey (k : string)
| WhitespaceAtBeginningOfKey (k : string)
| WhitespaceAtBeginningOfValue (v : string)
| WhitespaceAtEndOfValue (v : string).

(** [Get] gets the value associated with the given key, the empty string
    when there is none. *)
Definition Get (f : Form) (key : string) : string :=
  if is_nil f then ""
  else
    match index f key with
    | None => ""
    | Some v => if len v =? 0 then "" else v
    end.

(** [Set] sets the key to value. It replaces any existing value. *)
Definition Set_ (f : Form) (key value : string) : outcome Form :=
  assign f key value.

(** [Del] deletes the value associated with key. *)
Definition Del (f : Form) (key : string) : Form := delete_key f key.

(** The body of the loop of [Validate] for one entry: the error it
    returns, or [None] when the loop goes on. *)
Definition Validate_entry (k v : string) : option error :=
  if len v =? 0 then Some (EmptyValueForKey k)
  else if negb (utf8.ValidString k) then Some KeyNotValidUTF8
  else if negb (utf8.ValidString v) then Some ValueNotValidUTF8
  else if strings.ContainsRune k 0x0A || strings.ContainsRune k 0x3A
  then Some (KeyContainsNewlineOrColon k)
  else if unicode.IsSpace (fst (utf8.DecodeLastRuneInString k))
  then Some (WhitespaceAtEndOfKey k)
  else if unicode.IsSpace (fst (utf8.DecodeRuneInString k))
  then Some (WhitespaceAtBeginningOfKey k)
  else if unicode.IsSpace (fst (utf8.DecodeLastRuneInString v))
  then Some (WhitespaceAtBeginningOfValue v)
  else if unicode.IsSpace (fst (utf8.DecodeRuneInString v))
  then Some (WhitespaceAtEndOfValue v)
  else None.

(** [Validate] run on the entries in the order [range] yields them: the
    first error met, [None] for the nil error. *)
Fixpoint Validate_range (order : list (string * string)) : option error :=
  match order with
  | [] => None
  | (k, v) :: rest =>
      match Validate_entry k v with
      | Some e => Some e
      | None => Validate_range rest
      end
  end.

(** [f.Validate()] returns [err]. *)
Definition Validate (f : Form) (err : option error) : Prop :=
  ∃ order, ranges f order ∧ Validate_range order = err.

(** One line of the encoding written to the buffer. *)
Definition write_line (buf : Buffer.t) (kv : string * string) : Buffer.t :=
  let buf := Buffer.WriteString buf (fst kv) in
  let buf := Buffer.WriteRune buf colon in
  let buf := Buffer.WriteString buf (snd kv) in
  Buffer.WriteString buf newline.

(** [String] with the orders of its two [range] loops given. *)
Definition String_range (f : Form) (order1 order2 : list (string * string))
  : outcome string :=
  if is_nil f || (maplen f =? 0) then Ret ""
  else
    let buf := Buffer.empty in
    let n :=
      fold_left
        (fun n kv => n + (len (fst kv) + len (snd kv)
                          + utf8.RuneLen colon + len newline))
        order1 0 in
    let! buf := Buffer.Grow buf n in
    let buf := fold_left write_line order2 buf in
    Ret (Buffer.String buf).

(** [f.String()] ends with [out]. *)
Definition String (f : Form) (out : outcome string) : Prop :=
  ∃ order1 order2,
    ranges f order1 ∧ ranges f order2 ∧ String_range f order1 order2 = out.

(** Signed message in key-value form: a [Form] and the list of fields to
    be signed, without the prefix. *)
Record SignedForm : Type := mkSignedForm {
  form : Form;
  Fields : list string
}.

(** Comma-separated list of signed fields *)
Definition SignedFields (s : SignedForm) : outcome string :=
  if Z.of_nat (length (Fields s)) =? 0 then Ret ""
  else
    let buf := Buffer.empty in
    let n := fold_left (fun n k => n + len k) (Fields s) 0 in
    let n := n + utf8.RuneLen comma * (Z.of_nat (length (Fields s)) - 1) in
    let! buf := Buffer.Grow buf n in
    let buf :=
      fold_left
        (fun buf k =>
           let buf := Buffer.WriteString buf k in
           if Buffer.Len buf <? n then Buffer.WriteRune buf comma else buf)
        (Fields s) buf in
    Ret (Buffer.String buf).

(** The first loop of [SignedString]: [None] when it returns the empty
    string at a field that is missing or empty, the size otherwise. *)
Fixpoint SignedString_size (f : Form) (fields : list string) (n : Z)
  : option Z :=
  match fields with
  | [] => Some n
  | k :: rest =>
      match index f k with
      | None => None
      | Some v =>
          if len v =? 0 then None
          else SignedString_size f rest
                 (n + (len prefix + len k + len v
                       + utf8.RuneLen colon + len newline))
      end
  end.

(** Convert the list of key/value pairs to be signed to an octet string
    by encoding with Key-Value Form Encoding. *)
Definition SignedString (s : SignedForm) : outcome string :=
  let f := form s in
  if is_nil f || (maplen f =? 0) then Ret ""
  else
    let buf := Buffer.empty in
    match SignedString_size f (Fields s) 0 with
    | None => Ret ""
    | Some n =>
        let! buf := Buffer.Grow buf n in
        let buf :=
          fold_left
            (fun buf k =>
               let buf := Buffer.WriteString buf prefix in
               let buf := Buffer.WriteString buf k in
               let buf := Buffer.WriteRune buf colon in
               let buf := Buffer.WriteString buf (Get f k) in
               Buffer.WriteString buf newline)
            (Fields s) buf in
        Ret (Buffer.String buf)
    end.

(** [SignedFields] and [SignedString] are declared on [*SignedForm]: the
    receiver is a pointer, [None] when nil, and each method starts by
    reading a field of it, which panics through a nil pointer. *)
Definition SignedFields_ptr (s : option SignedForm) : outcome string :=
  match s with
  | None => Panic nil_dereference
  | Some s => SignedFields s
  end.


(** [Write] with the orders of the two [range] loops of [String] given:
    the encoded message is computed, then written to [w] in one call, and
    the error of that call is returned; the result holds the writer as
    the call leaves it. *)
Definition Write_range {W : Type} `{io.Writer W} (f : Form)
    (order1 order2 : list (string * string)) (w : option W)
  : outcome (W * option io.error) :=
  let! s := String_range f order1 order2 in
  let! r := io.WriteString w s in
  Ret (fst r, snd (snd r)).

(** [f.Write(w)] ends with [res]. *)
Definition Write {W : Type} `{io.Writer W} (f : Form) (w : option W)
    (res : outcome (W * option io.error)) : Prop :=
  ∃ order1 order2,
    ranges f order1 ∧ ranges f order2 ∧ Write_range f order1 order2 w = res.

End keyvalue.

(** ** Package keyvalue, the file that declares Message *)

Module message.

(** Colon rune. *)
Definition colon : Z := 0x3A.
(** Newline string. *)
Definition newline : string := String "010"%char EmptyString.

(** Message maps a string key to a string value. *)
Abbreviation Message := gomap.

(** The errors of [Validate], as in [keyvalue.error]: the two files build
    them with the same calls of [fmt.Errorf]. *)
Abbreviation error := keyvalue.error.

(** [Get] gets the value associated with the given key, the empty string
    when there is none. *)
Definition Get (m : Message) (key : string) : string :=
  if is_nil m then ""
  else
    match index m key with
    | None => ""
    | Some v => if len v =? 0 then "" else v
    end.

(** [Set] sets the key to value. It replaces any existing value. *)
Definition Set_ (m : Message) (key value : string) : outcome Message :=
  assign m key value.

(** [Del] deletes the value associated with key. *)
Definition Del (m : Message) (key : string) : Message := delete_key m key.

(** The body of the loop of [Validate] for one entry. *)
Definition Validate_entry (k v : string) : option error :=
  if len v =? 0 then Some (keyvalue.EmptyValueForKey k)
  else if negb (utf8.ValidString k) then Some keyvalue.KeyNotValidUTF8
  else if negb (utf8.ValidString v) then Some keyvalue.ValueNotValidUTF8
  else if strings.ContainsRune k 0x0A || strings.ContainsRune k 0x3A
  then Some (keyvalue.KeyContainsNewlineOrColon k)
  else if unicode.IsSpace (fst (utf8.DecodeLastRuneInString k))
  then Some (keyvalue.WhitespaceAtEndOfKey k)
  else if unicode.IsSpace (fst (utf8.DecodeRuneInString k))
  then Some (keyvalue.WhitespaceAtBeginningOfKey k)
  else if unicode.IsSpace (fst (utf8.DecodeLastRuneInString v))
  then Some (keyvalue.WhitespaceAtBeginningOfValue v)
  else if unicode.IsSpace (fst (utf8.DecodeRuneInString v))
  then Some (keyvalue.WhitespaceAtEndOfValue v)
  else None.

(** [Validate] run on the entries in the order [range] yields them. *)
Fixpoint Validate_range (order : list (string * string)) : option error :=
  match order with
  | [] => None
  | (k, v) :: rest =>
      match Validate_entry k v with
      | Some e => Some e
      | None => Validate_range rest
      end
  end.

(** [m.Validate()] returns [err]. *)
Definition Validate (m : Message) (err : option error) : Prop :=
  ∃ order, ranges m order ∧ Validate_range order = err.

(** [String] with the orders of its two [range] loops given. *)
Definition String_range (v : Message) (order1 order2 : list (string * string))
  : outcome string :=
  if is_nil v || (maplen v =? 0) then Ret ""
  else
    let buf := Buffer.empty in
    let n :=
      fold_left
        (fun n kv => n + (len (fst kv) + len (snd kv)
                          + utf8.RuneLen colon + len newline))
        order1 0 in
    let! buf := Buffer.Grow buf n in
    let buf :=
      fold_left
        (fun buf kv =>
           let buf := Buffer.WriteString buf (fst kv) in
           let buf := Buffer.WriteRune buf colon in
           let buf := Buffer.WriteString buf (snd kv) in
           Buffer.WriteString buf newline)
        order2 buf in
    Ret (Buffer.String buf).

(** [v.String()] ends with [out]. *)
Definition String (v : Message) (out : outcome string) : Prop :=
  ∃ order1 order2,
    ranges v order1 ∧ ranges v order2 ∧ String_range v order1 order2 = out.

End message.

(** ** What the encoding is, in the words of the format *)

(** The line terminator of the format: the one byte 10 (U+000A). *)
Definition LF : string := String "010"%char EmptyString.

(** The line of the encoding for one entry: key, colon, value, newline. *)
Definition line (kv : string * string) : string :=
  fst kv +:+ ":" +:+ snd kv +:+ LF.

(** The line of the signed encoding for a field and its value. *)
Definition signed_line (k v : string) : string :=
  "openid." +:+ k +:+ ":" +:+ v +:+ LF.

(** The field is in the mapping with a value that is not empty. *)
Definition signable (f : gomap) (k : string) : Prop :=
  ∃ v, index f k = Some v ∧ v ≠ "".

(** Strings written one after the other. *)
Definition concat_all (l : list string) : string := foldr String.append "" l.

(** The strings of [l] with [sep] between consecutive ones. *)
Fixpoint join (sep : string) (l : list string) : string :=
  match l with
  | [] => ""
  | [x] => x
  | x :: rest => x +:+ sep +:+ join sep rest
  end.

(** The characters of a byte string: the runes met reading it from left
    to right, as [for _, r := range s] yields them (an invalid byte reads
    as [RuneError]). Every step consumes at least one byte, so [fuel] the
    length of the input is enough. *)
Fixpoint runes_of (fuel : nat) (p : list Z) : list Z :=
  match fuel with
  | O => []
  | S fuel' =>
      match p with
      | [] => []
      | _ :: _ =>
          let '(r, size) := utf8.DecodeRune p in
          r :: runes_of fuel' (skipn (Z.to_nat size) p)
      end
  end.

Definition runes (s : string) : list Z := runes_of (length (bytes s)) (bytes s).

(** The first, and the last, character of the string is white space. *)
Definition begins_with_space (s : string) : bool :=
  match runes s with
  | [] => false
  | r :: _ => unicode.IsSpace r
  end.

Definition ends_with_space (s : string) : bool :=
  match last (runes s) with
  | None => false
  | Some r => unicode.IsSpace r
  end.

(** The byte [c] occurs in [s]. *)
Definition contains (s : string) (c : Z) : bool := existsb (Z.eqb c) (bytes s).

(** The byte [c] occurs in [s] at a place that is neither the first nor
    the last. *)
Definition contains_inside (s : string) (c : Z) : bool :=
  existsb (Z.eqb c) (removelast (tl (bytes s))).

(** The rules of the format on a value, other than the non-emptiness. *)
Definition value_ok (v : string) : bool :=
  negb (len v =? 0) && utf8.ValidString v
  && negb (begins_with_space v) && negb (ends_with_space v).

(** The rules of the format on a key. *)
Definition key_ok (k : string) : bool :=
  utf8.ValidString k
  && negb (contains k 0x3A) && negb (contains k 0x0A)
  && negb (begins_with_space k) && negb (ends_with_space k).

(** An entry that breaks one of the rules: an empty value, a key or a
    value that is not valid UTF-8, a colon or a newline in the key, white
    space as first or last character of the key or of the value. *)
Definition violates (k v : string) : bool :=
  (len v =? 0)
  || negb (utf8.ValidString k) || negb (utf8.ValidString v)
  || contains k 0x3A || contains k 0x0A
  || begins_with_space k || ends_with_space k
  || begins_with_space v || ends_with_space v.

(** ** Well-formed UTF-8 *)

(** What the proofs need from the table [first], checked entry by entry. *)
Definition first_entry_ok (b : Z) : bool :=
  let x := utf8.first b in
  let acc := utf8.acceptRanges (Z.shiftr x 4) in
  if b <? 0x80 then (x =? utf8.as_) && utf8.RuneStart b
  else
    (if b <=? 0xBF then negb (utf8.RuneStart b) && (x =? utf8.xx) else true)
    && ((x =? utf8.xx)
        || ((x <? utf8.as_) && utf8.RuneStart b
            && (2 <=? Z.land x 7) && (Z.land x 7 <=? 4)
            && (0x80 <=? utf8.lo acc) && (utf8.hi acc <=? 0xBF))).

(** A well-formed encoding of one character: one byte below [RuneSelf],
    or a leading byte with the continuation bytes its table entry asks
    for. *)
Definition unit_ok (w : list Z) : Prop :=
  match w with
  | [b0] => 0 <= b0 < 0x80
  | b0 :: b1 :: rest =>
      let x := utf8.first b0 in
      let acc := utf8.acceptRanges (Z.shiftr x 4) in
      0x80 <= b0 < 256 ∧ x ≠ utf8.xx
      ∧ Z.land x 7 = Z.of_nat (length w)
      ∧ utf8.lo acc <= b1 <= utf8.hi acc
      ∧ Forall (fun b : Z => utf8.locb <= b <= utf8.hicb) rest
  | [] => False
  end.

Definition in_byte_range (p : list Z) : Prop := Forall (fun b : Z => 0 <= b < 256) p.

(** ** Sample data *)

Definition foo_bar : gmap string string := {[ "foo" := "bar" ]}.
Definition foo_santa : gmap string string :=
  <[ "santa" := "banta" ]> {[ "foo" := "bar" ]}.

(** ** Sizes and sinks *)

(** The size [SignedFields] computes before it writes. *)
Definition SignedFields_size (fields : list string) : Z :=
  fold_left (fun n k => n + len k) fields 0
  + utf8.RuneLen keyvalue.comma * (Z.of_nat (length fields) - 1).

(** No byte of [s] is [c]. *)
Definition free_of (c : Z) (s : string) : Prop := contains s c = false.

(** ** Reading an error of Validate *)

(** What each error says of the entry [k], [v] that raised it. The two
    errors on white space in a value carry the names of their messages:
    the one that says beginning is raised for the last character, the one
    that says end for the first. *)
Definition reported (e : keyvalue.error) (k v : string) : Prop :=
  match e with
  | keyvalue.EmptyValueForKey k' => k' = k ∧ v = ""
  | keyvalue.KeyNotValidUTF8 => utf8.ValidString k = false
  | keyvalue.ValueNotValidUTF8 => utf8.ValidString v = false
  | keyvalue.KeyContainsNewlineOrColon k' =>
      k' = k ∧ (contains k 0x0A = true ∨ contains k 0x3A = true)
  | keyvalue.WhitespaceAtEndOfKey k' => k' = k ∧ ends_with_space k = true
  | keyvalue.WhitespaceAtBeginningOfKey k' =>
      k' = k ∧ begins_with_space k = true
  | keyvalue.WhitespaceAtBeginningOfValue v' =>
      v' = v ∧ ends_with_space v = true
  | keyvalue.WhitespaceAtEndOfValue v' =>
      v' = v ∧ begins_with_space v = true
  end.

(** ** Two Forms that write the same lines *)

(** One entry whose value holds a newline and then a line of its own. *)
Definition one_entry : gmap string string :=
  {[ "a" := "b" +:+ LF +:+ "c:d" ]}.

(** The two entries that the value above spells out. *)
Definition two_entries : gmap string string :=
  <[ "c" := "d" ]> {[ "a" := "b" ]}.

Example utf8_decode_euro :
  utf8.DecodeRune [0xE2; 0x82; 0xAC; 0x41] = (0x20AC, 3)
  ∧ utf8.DecodeLastRune [0x41; 0xE2; 0x82; 0xAC] = (0x20AC, 3)
  ∧ utf8.DecodeLastRune [0x41; 0x82; 0xAC] = (utf8.RuneError, 1)
  ∧ utf8.DecodeRune [0xFF] = (utf8.RuneError, 1)
  ∧ utf8.EncodeRune 0x20AC = [0xE2; 0x82; 0xAC]
  ∧ utf8.Valid [0x41; 0xE2; 0x82; 0xAC] = true
  ∧ utf8.Valid [0xE2; 0x82] = false
  ∧ utf8.Valid [0xED; 0xA0; 0x80] = false.
Proof. repeat split; vm_compute; reflexivity. Qed.


Example IsSpace_samples :
  map unicode.IsSpace [0x20; 0x0A; 0x3A; 0x61; 0xA0; 0x1680; 0x2003; 0x200B;
                       0x205F; 0x3000; 0x3001; 0xFFFD]
  = [true; true; false; false; true; true; true; false;
     true; true; false; false].
Proof. vm_compute. reflexivity. Qed.


Example SignedString_test :
  keyvalue.SignedString (keyvalue.mkSignedForm (Some foo_santa) ["santa"; "foo"])
  = Ret ("openid.santa:banta" +:+ LF +:+ "openid.foo:bar" +:+ LF).
Proof. vm_compute. reflexivity. Qed.


Example SignedFields_test :
  keyvalue.SignedFields (keyvalue.mkSignedForm (Some foo_santa) ["santa"; "foo"])
  = Ret "santa,foo".
Proof. vm_compute. reflexivity. Qed.


Example String_test :
  keyvalue.String_range (Some foo_bar) (map_to_list foo_bar) (map_to_list foo_bar)
  = Ret ("foo:bar" +:+ LF).
Proof. vm_compute. reflexivity. Qed.


Example Validate_tests :
  map (fun kv => keyvalue.Validate_range [kv])
      [("foo", "bar"); ("f:oo", "bar"); (" foo", "bar"); ("foo ", "bar");
       ("foo", " bar"); ("foo", "bar "); ("foo", ""); ("", "bar");
       ("foo", "b:ar")]
  = [None; Some (keyvalue.KeyContainsNewlineOrColon "f:oo");
     Some (keyvalue.WhitespaceAtBeginningOfKey " foo");
     Some (keyvalue.WhitespaceAtEndOfKey "foo ");
     Some (keyvalue.WhitespaceAtEndOfValue " bar");
     Some (keyvalue.WhitespaceAtBeginningOfValue "bar ");
     Some (keyvalue.EmptyValueForKey "foo"); None; None].
Proof. vm_compute. reflexivity. Qed.

Example runes_test :
  runes (of_bytes [0x20; 0xE2; 0x82; 0xAC; 0xFF; 0x41; 0xC2; 0xA0])
  = [0x20; 0x20AC; utf8.RuneError; 0x41; 0xA0]
  ∧ ends_with_space (of_bytes [0x41; 0xC2; 0xA0]) = true
  ∧ begins_with_space (of_bytes [0x41; 0xC2; 0xA0]) = false.
Proof. repeat split; vm_compute; reflexivity. Qed.

(** * Properties *)

(** ** Byte strings *)

Section Bytes.

Lemma byte_val_range (a : ascii) : 0 <= byte_val a < 256.
Proof.
  unfold byte_val. pose proof (N_ascii_bounded a). lia.
Qed.

Lemma bytes_range (s : string) : Forall (fun b => 0 <= b < 256) (bytes s).
Proof.
  induction s as [|a s IH]; simpl; constructor; auto using byte_val_range.
Qed.

Lemma of_bytes_bytes (s : string) : of_bytes (bytes s) = s.
Proof.
  induction s as [|a s IH]; simpl; [reflexivity|].
  rewrite IH. f_equal.
  rewrite Z.mod_small by apply byte_val_range.
  unfold byte_val. rewrite N2Z.id. apply ascii_N_embedding.
Qed.

Lemma of_bytes_app (p q : list Z) :
  of_bytes (p ++ q) = of_bytes p +:+ of_bytes q.
Proof.
  induction p as [|b p IH]; simpl; [reflexivity|]. now rewrite IH.
Qed.

Lemma bytes_app (s t : string) : bytes (s +:+ t) = bytes s ++ bytes t.
Proof.
  induction s as [|a s IH]; simpl; [reflexivity|]. now rewrite IH.
Qed.

Lemma length_bytes (s : string) : length (bytes s) = String.length s.
Proof.
  induction s as [|a s IH]; simpl; [reflexivity|]. now rewrite IH.
Qed.

Lemma len_nonneg (s : string) : 0 <= len s.
Proof. unfold len. lia. Qed.

Lemma len_zero (s : string) : len s = 0 ↔ s = "".
Proof.
  unfold len. destruct s; simpl; split; intros H; try reflexivity; try lia.
  discriminate H.
Qed.

Lemma len_eqb_zero (s : string) : (len s =? 0) = true ↔ s = "".
Proof. rewrite Z.eqb_eq. apply len_zero. Qed.

Lemma bytes_nil (s : string) : bytes s = [] ↔ s = "".
Proof.
  destruct s; simpl; split; intros H; try reflexivity; discriminate H.
Qed.

Lemma append_assoc (s t u : string) : (s +:+ t) +:+ u = s +:+ (t +:+ u).
Proof.
  induction s as [|a s IH]; [reflexivity|].
  change (String a ((s +:+ t) +:+ u) = String a (s +:+ (t +:+ u))).
  now rewrite IH.
Qed.

Lemma append_empty_r (s : string) : s +:+ "" = s.
Proof.
  induction s as [|a s IH]; [reflexivity|].
  change (String a (s +:+ "") = String a s). now rewrite IH.
Qed.

End Bytes.

(** ** The buffer *)

Section BufferFacts.

Lemma String_WriteString (b : Buffer.t) (s : string) :
  Buffer.String (Buffer.WriteString b s) = Buffer.String b +:+ s.
Proof.
  unfold Buffer.String, Buffer.WriteString. simpl.
  now rewrite of_bytes_app, of_bytes_bytes.
Qed.

Lemma String_WriteRune_colon (b : Buffer.t) :
  Buffer.String (Buffer.WriteRune b keyvalue.colon) = Buffer.String b +:+ ":".
Proof.
  unfold Buffer.String, Buffer.WriteRune. simpl.
  now rewrite of_bytes_app.
Qed.

Lemma String_WriteRune_comma (b : Buffer.t) :
  Buffer.String (Buffer.WriteRune b keyvalue.comma) = Buffer.String b +:+ ",".
Proof.
  unfold Buffer.String, Buffer.WriteRune. simpl.
  now rewrite of_bytes_app.
Qed.

Lemma Len_WriteString (b : Buffer.t) (s : string) :
  Buffer.Len (Buffer.WriteString b s) = Buffer.Len b + len s.
Proof.
  unfold Buffer.Len, Buffer.WriteString, len. simpl.
  rewrite length_app, length_bytes. lia.
Qed.

Lemma Len_WriteRune_comma (b : Buffer.t) :
  Buffer.Len (Buffer.WriteRune b keyvalue.comma) = Buffer.Len b + 1.
Proof.
  unfold Buffer.Len, Buffer.WriteRune. simpl.
  rewrite length_app. simpl. lia.
Qed.

Lemma Grow_nonneg (b : Buffer.t) (n : Z) : 0 <= n → Buffer.Grow b n = Ret b.
Proof.
  intros H. unfold Buffer.Grow.
  destruct (n <? 0) eqn:E; [apply Z.ltb_lt in E; lia | reflexivity].
Qed.

End BufferFacts.

(** ** UTF-8: reading a valid string from its end *)

Section Utf8Facts.

Arguments utf8.first : simpl never.
Arguments utf8.acceptRanges : simpl never.
Arguments utf8.RuneStart : simpl never.

Implicit Types (p w t : list Z) (b : Z).

Ltac zb :=
  repeat match goal with
  | H : (_ <? _) = true |- _ => apply Z.ltb_lt in H
  | H : (_ <? _) = false |- _ => apply Z.ltb_ge in H
  | H : (_ <=? _) = true |- _ => apply Z.leb_le in H
  | H : (_ <=? _) = false |- _ => apply Z.leb_gt in H
  | H : (_ =? _) = true |- _ => apply Z.eqb_eq in H
  | H : (_ =? _) = false |- _ => apply Z.eqb_neq in H
  | H : (_ || _) = true |- _ => apply orb_true_iff in H as [H | H]
  | H : (_ || _) = false |- _ => apply orb_false_iff in H as [H ?]
  end.

Ltac split_if :=
  match goal with
  | |- context [if ?c then _ else _] =>
      let E := fresh "E" in destruct c eqn:E; zb; try lia
  end.

Ltac open_decode :=
  unfold utf8.DecodeRune; cbv zeta; unfold at_;
  change (Z.to_nat 0) with 0%nat; change (Z.to_nat 1) with 1%nat;
  change (Z.to_nat 2) with 2%nat; change (Z.to_nat 3) with 3%nat;
  cbn [app nth length fst].

Lemma first_table_checked b : 0 <= b < 256 → first_entry_ok b = true.
Proof.
  intros Hb.
  assert (H : forallb (fun n => first_entry_ok (Z.of_nat n)) (seq 0 256) = true)
    by (vm_compute; reflexivity).
  rewrite forallb_forall in H.
  rewrite <- (Z2Nat.id b) by lia. apply H, in_seq. lia.
Qed.

Lemma first_ascii b : 0 <= b < 0x80 → utf8.first b = utf8.as_.
Proof.
  intros Hb. pose proof (first_table_checked b ltac:(lia)) as H.
  unfold first_entry_ok in H.
  destruct (b <? 128) eqn:E; [|apply Z.ltb_ge in E; lia].
  apply andb_true_iff in H as [H _]. now apply Z.eqb_eq in H.
Qed.

Lemma continuation_not_start b :
  0x80 <= b <= 0xBF → utf8.RuneStart b = false.
Proof.
  intros Hb. pose proof (first_table_checked b ltac:(lia)) as H.
  unfold first_entry_ok in H.
  destruct (b <? 128) eqn:E; [apply Z.ltb_lt in E; lia|].
  destruct (b <=? 191) eqn:E'; [|apply Z.leb_gt in E'; lia].
  apply andb_true_iff in H as [H _]. apply andb_true_iff in H as [H _].
  now apply negb_true_iff in H.
Qed.

Lemma first_lead b :
  0x80 <= b < 256 → utf8.first b ≠ utf8.xx →
  utf8.first b < utf8.as_ ∧ utf8.RuneStart b = true
  ∧ 2 <= Z.land (utf8.first b) 7 <= 4
  ∧ 0x80 <= utf8.lo (utf8.acceptRanges (Z.shiftr (utf8.first b) 4))
  ∧ utf8.hi (utf8.acceptRanges (Z.shiftr (utf8.first b) 4)) <= 0xBF.
Proof.
  intros Hb Hx. pose proof (first_table_checked b ltac:(lia)) as H.
  unfold first_entry_ok in H.
  destruct (b <? 128) eqn:E; [apply Z.ltb_lt in E; lia|].
  apply andb_true_iff in H as [_ H].
  apply orb_true_iff in H as [H | H]; [apply Z.eqb_eq in H; contradiction|].
  repeat (apply andb_true_iff in H as [H ?]).
  repeat match goal with
         | H : (_ <? _) = true |- _ => apply Z.ltb_lt in H
         | H : (_ <=? _) = true |- _ => apply Z.leb_le in H
         end.
  auto with zarith.
Qed.

Lemma unit_ok_length w : unit_ok w → (1 <= length w <= 4)%nat.
Proof.
  destruct w as [|b0 [|b1 rest]]; simpl; [tauto | lia |].
  intros (Hb & Hx & Hsz & _). pose proof (first_lead b0 Hb Hx) as (_ & _ & H & _).
  rewrite Hsz in H. simpl in H. lia.
Qed.

Lemma DecodeRune_ascii b0 t :
  0 <= b0 < 0x80 → utf8.DecodeRune (b0 :: t) = (b0, 1).
Proof.
  intros Hb. open_decode. rewrite (first_ascii b0 Hb).
  split_if.
  change (utf8.as_ <=? utf8.as_) with true. cbv iota.
  change (Z.shiftr (to_int32 (Z.shiftl utf8.as_ 31)) 31) with 0.
  change (Z.lnot 0) with (-1). change (Z.land utf8.RuneError 0) with 0.
  now rewrite Z.land_m1_r, Z.lor_0_r.
Qed.

Lemma DecodeRune_unit w t :
  unit_ok w →
  utf8.DecodeRune (w ++ t) = (fst (utf8.DecodeRune w), Z.of_nat (length w)).
Proof.
  intros Hu. pose proof (unit_ok_length w Hu) as Hlen.
  destruct w as [|b0 [|b1 rest]]; [destruct Hu | |].
  - simpl in Hu. cbn [app]. now rewrite !DecodeRune_ascii.
  - destruct Hu as (Hb & Hx & Hsz & Hb1 & Hrest).
    destruct (first_lead b0 Hb Hx) as (Hlt & _ & _ & Hlo & Hhi).
    destruct rest as [|b2 [|b3 [|b4 rest]]]; cbn [length] in Hlen, Hsz; try lia.
    + open_decode. repeat split_if. reflexivity.
    + apply Forall_cons in Hrest as [Hb2 _]. unfold utf8.locb, utf8.hicb in Hb2.
      open_decode. unfold utf8.locb, utf8.hicb. repeat split_if. reflexivity.
    + apply Forall_cons in Hrest as [Hb2 Hrest].
      apply Forall_cons in Hrest as [Hb3 _].
      unfold utf8.locb, utf8.hicb in Hb2, Hb3.
      open_decode. unfold utf8.locb, utf8.hicb. repeat split_if. reflexivity.
Qed.

Lemma unit_ok_tail_continuation w i :
  unit_ok w → (1 <= i < length w)%nat → 0x80 <= nth i w 0 <= 0xBF.
Proof.
  destruct w as [|b0 [|b1 rest]]; simpl; [tauto | lia |].
  intros (Hb & Hx & _ & Hb1 & Hrest) Hi.
  destruct (first_lead b0 Hb Hx) as (_ & _ & _ & Hlo & Hhi).
  destruct i as [|[|i]]; [lia | lia |].
  rewrite Forall_forall in Hrest. unfold utf8.locb, utf8.hicb in Hrest.
  apply Hrest, list_elem_of_In, nth_In. lia.
Qed.

Lemma unit_ok_head_start w :
  unit_ok w → utf8.RuneStart (nth 0 w 0) = true.
Proof.
  destruct w as [|b0 [|b1 rest]]; simpl; [tauto | |].
  - intros Hb. pose proof (first_table_checked b0 ltac:(lia)) as H.
    unfold first_entry_ok in H.
    destruct (b0 <? 128) eqn:E; [|apply Z.ltb_ge in E; lia].
    now apply andb_true_iff in H as [_ H].
  - intros (Hb & Hx & _). now destruct (first_lead b0 Hb Hx) as (_ & H & _).
Qed.

Lemma at_app_r p w (i : nat) :
  at_ (p ++ w) (Z.of_nat (length p) + Z.of_nat i) = nth i w 0.
Proof.
  unfold at_. rewrite <- Nat2Z.inj_add, Nat2Z.id.
  rewrite app_nth2 by lia. f_equal. lia.
Qed.

Lemma slice_app_r p w :
  slice (p ++ w) (Z.of_nat (length p)) (Z.of_nat (length (p ++ w))) = w.
Proof.
  unfold slice. rewrite length_app, Nat2Z.inj_add.
  replace (Z.of_nat (length p) + Z.of_nat (length w) - Z.of_nat (length p))
    with (Z.of_nat (length w)) by lia.
  rewrite !Nat2Z.id, drop_app_length. apply firstn_all.
Qed.

Lemma scan_back_found p (lim : Z) (k j : nat) :
  (j < k)%nat →
  utf8.RuneStart (at_ p (lim + Z.of_nat j)) = true →
  (∀ i, (j < i < k)%nat → utf8.RuneStart (at_ p (lim + Z.of_nat i)) = false) →
  utf8.scan_back p lim k = lim + Z.of_nat j.
Proof.
  induction k as [|k IH]; intros Hj Hstart Hcont; [lia|].
  cbn [utf8.scan_back]. cbv zeta.
  destruct (Nat.eq_dec j k) as [-> | Hne].
  - now rewrite Hstart.
  - rewrite Hcont by lia. apply IH; [lia | exact Hstart |].
    intros i Hi. apply Hcont. lia.
Qed.

(** Reading backwards from the end of [p ++ w], where [w] is a well-formed
    encoding, finds the character of [w]. *)
Lemma DecodeLastRune_unit p w :
  unit_ok w →
  utf8.DecodeLastRune (p ++ w)
  = (fst (utf8.DecodeRune w), Z.of_nat (length w)).
Proof.
  intros Hu. pose proof (unit_ok_length w Hu) as Hlen.
  unfold utf8.DecodeLastRune. cbv zeta.
  set (end_ := Z.of_nat (length (p ++ w))).
  assert (Hend : end_ = Z.of_nat (length p) + Z.of_nat (length w))
    by (unfold end_; rewrite length_app; lia).
  destruct (end_ =? 0) eqn:E0; [apply Z.eqb_eq in E0; lia|].
  replace (end_ - 1) with (Z.of_nat (length p) + Z.of_nat (length w - 1)%nat) by lia.
  rewrite at_app_r.
  destruct (Nat.eq_dec (length w) 1%nat) as [H1 | H1].
  - destruct w as [|b0 [|b1 rest]]; try discriminate H1.
    simpl in Hu. cbn [length Nat.sub nth]. rewrite DecodeRune_ascii by exact Hu.
    unfold utf8.RuneSelf.
    destruct (b0 <? 128) eqn:E; [reflexivity | apply Z.ltb_ge in E; lia].
  - pose proof (unit_ok_tail_continuation w (length w - 1)%nat Hu ltac:(lia)) as Hl.
    unfold utf8.RuneSelf.
    destruct (nth (length w - 1)%nat w 0 <? 128) eqn:E; [apply Z.ltb_lt in E; lia|].
    clear E Hl. unfold utf8.UTFMax.
    set (lim := if end_ - 4 <? 0 then 0 else end_ - 4).
    assert (Hlim : 0 <= lim <= Z.of_nat (length p)).
    { unfold lim. destruct (end_ - 4 <? 0) eqn:E; [lia|].
      apply Z.ltb_ge in E. lia. }
    rewrite (scan_back_found _ lim _ (Z.to_nat (Z.of_nat (length p) - lim))).
    + replace (lim + Z.of_nat (Z.to_nat (Z.of_nat (length p) - lim)))
        with (Z.of_nat (length p)) by lia.
      destruct (Z.of_nat (length p) <? 0) eqn:E; [apply Z.ltb_lt in E; lia|].
      unfold end_. rewrite slice_app_r.
      rewrite <- (app_nil_r w) at 1. rewrite DecodeRune_unit by exact Hu.
      fold end_. rewrite Hend, Z.eqb_refl. reflexivity.
    + lia.
    + replace (lim + Z.of_nat (Z.to_nat (Z.of_nat (length p) - lim)))
        with (Z.of_nat (length p) + Z.of_nat 0) by lia.
      rewrite at_app_r. now apply unit_ok_head_start.
    + intros i Hi.
      replace (lim + Z.of_nat i)
        with (Z.of_nat (length p)
              + Z.of_nat (Z.to_nat (lim + Z.of_nat i - Z.of_nat (length p))))
        by lia.
      rewrite at_app_r. apply continuation_not_start.
      apply unit_ok_tail_continuation; [exact Hu | lia].
Qed.

Lemma Valid_step p :
  p ≠ [] → in_byte_range p → utf8.Valid p = true →
  ∃ w t, p = w ++ t ∧ unit_ok w ∧ utf8.Valid t = true.
Proof.
  intros Hne Hr Hv. destruct p as [|b0 p1]; [contradiction|].
  apply Forall_cons in Hr as [Hb0 Hr1].
  cbn [utf8.Valid] in Hv. cbv zeta in Hv. unfold utf8.RuneSelf in Hv.
  destruct (b0 <? 128) eqn:E0; zb.
  { exists [b0], p1. simpl. auto with zarith. }
  destruct (utf8.first b0 =? utf8.xx) eqn:Ex; [discriminate|]; zb.
  destruct (first_lead b0 ltac:(lia) Ex) as (Hlt & _ & Hsz & Hlo & Hhi).
  destruct (Z.of_nat (length (b0 :: p1)) <? Z.land (utf8.first b0) 7) eqn:En;
    [discriminate|]; zb.
  destruct p1 as [|c1 p2]; [discriminate|].
  destruct ((c1 <? _) || (_ <? c1)) eqn:E1; [discriminate|]; zb.
  destruct (Z.land (utf8.first b0) 7 =? 2) eqn:E2; zb.
  { exists [b0; c1], p2. simpl. repeat split; auto with zarith. }
  destruct p2 as [|c2 p3]; [discriminate|].
  unfold utf8.locb, utf8.hicb in Hv.
  destruct ((c2 <? _) || (_ <? c2)) eqn:E3; [discriminate|]; zb.
  destruct (Z.land (utf8.first b0) 7 =? 3) eqn:E4; zb.
  { exists [b0; c1; c2], p3. simpl. unfold utf8.locb, utf8.hicb.
    repeat split; auto with zarith. }
  destruct p3 as [|c3 p4]; [discriminate|].
  destruct ((c3 <? _) || (_ <? c3)) eqn:E5; [discriminate|]; zb.
  exists [b0; c1; c2; c3], p4. simpl. unfold utf8.locb, utf8.hicb.
  repeat split; auto with zarith.
Qed.

Lemma Valid_units p :
  in_byte_range p → utf8.Valid p = true →
  ∃ ws, p = concat ws ∧ Forall unit_ok ws.
Proof.
  remember (length p) as n eqn:Hn. revert p Hn.
  induction n as [n IH] using lt_wf_ind. intros p Hn Hr Hv.
  destruct (decide (p = [])) as [-> | Hne].
  { exists []. split; [reflexivity | constructor]. }
  destruct (Valid_step p Hne Hr Hv) as (w & t & -> & Hw & Ht).
  pose proof (unit_ok_length w Hw) as Hlen.
  apply Forall_app in Hr as [_ Hrt].
  destruct (IH (length t)) with (p := t) as (ws & -> & Hws);
    [rewrite Hn, length_app; lia | reflexivity | exact Hrt | exact Ht |].
  exists (w :: ws). split; [reflexivity | now constructor].
Qed.

Lemma runes_of_units ws (fuel : nat) :
  Forall unit_ok ws → (length (concat ws) <= fuel)%nat →
  runes_of fuel (concat ws) = map (fun w => fst (utf8.DecodeRune w)) ws.
Proof.
  revert fuel. induction ws as [|w ws IH]; intros fuel Hws Hfuel.
  - destruct fuel; reflexivity.
  - apply Forall_cons in Hws as [Hw Hws].
    pose proof (unit_ok_length w Hw) as Hlen.
    cbn [concat] in *. rewrite length_app in Hfuel.
    destruct fuel as [|fuel]; [lia|]. cbn [runes_of].
    destruct (w ++ concat ws) as [|b q] eqn:Ewq.
    { apply (f_equal (@length Z)) in Ewq. rewrite length_app in Ewq.
      simpl in Ewq. lia. }
    rewrite <- Ewq, DecodeRune_unit by exact Hw.
    rewrite Nat2Z.id, drop_app_length. cbn [map]. f_equal.
    apply IH; [exact Hws | lia].
Qed.

(** On a valid string, the rune read backwards from the end is the last
    character of the string. *)
Lemma DecodeLastRune_valid p :
  in_byte_range p → utf8.Valid p = true →
  fst (utf8.DecodeLastRune p)
  = default utf8.RuneError (last (runes_of (length p) p)).
Proof.
  intros Hr Hv. destruct (Valid_units p Hr Hv) as (ws & -> & Hws).
  rewrite runes_of_units by (exact Hws || lia).
  destruct ws as [|w0 ws0] using rev_ind; [reflexivity|].
  apply Forall_app in Hws as [_ Hw]. apply Forall_cons in Hw as [Hw _].
  rewrite concat_app. cbn [concat]. rewrite app_nil_r.
  rewrite DecodeLastRune_unit by exact Hw.
  rewrite map_app. cbn [map]. now rewrite last_snoc.
Qed.

Lemma Valid_unit_app w t : unit_ok w → utf8.Valid (w ++ t) = utf8.Valid t.
Proof.
  intros Hu. pose proof (unit_ok_length w Hu) as Hlen.
  destruct w as [|b0 [|b1 rest]]; [destruct Hu | |].
  - simpl in Hu. cbn [app utf8.Valid]. unfold utf8.RuneSelf.
    now split_if.
  - destruct Hu as (Hb & Hx & Hsz & Hb1 & Hrest).
    destruct (first_lead b0 Hb Hx) as (Hlt & _ & _ & Hlo & Hhi).
    destruct rest as [|b2 [|b3 [|b4 rest]]]; cbn [length] in Hlen, Hsz; try lia.
    + cbn [app utf8.Valid length]. cbv zeta. unfold utf8.RuneSelf.
      repeat split_if. reflexivity.
    + apply Forall_cons in Hrest as [Hb2 _]. unfold utf8.locb, utf8.hicb in Hb2.
      cbn [app utf8.Valid length]. cbv zeta.
      unfold utf8.RuneSelf, utf8.locb, utf8.hicb.
      repeat split_if. reflexivity.
    + apply Forall_cons in Hrest as [Hb2 Hrest].
      apply Forall_cons in Hrest as [Hb3 _].
      unfold utf8.locb, utf8.hicb in Hb2, Hb3.
      cbn [app utf8.Valid length]. cbv zeta.
      unfold utf8.RuneSelf, utf8.locb, utf8.hicb.
      repeat split_if. reflexivity.
Qed.

(** A valid string stays valid, or not, with what follows it. *)
Lemma Valid_app p q :
  in_byte_range p → utf8.Valid p = true → utf8.Valid (p ++ q) = utf8.Valid q.
Proof.
  intros Hr Hv. destruct (Valid_units p Hr Hv) as (ws & -> & Hws).
  clear Hr Hv. induction Hws as [|w ws Hw _ IH]; [reflexivity|].
  cbn [concat]. rewrite <- app_assoc, Valid_unit_app by exact Hw. exact IH.
Qed.

End Utf8Facts.

(** ** Mapping accessors *)

Section Accessors.

Implicit Types (f : gomap) (m : gmap string string) (key value : string).

Lemma index_nil key : index None key = None.
Proof. unfold index. simpl. apply lookup_empty. Qed.

Lemma Get_spec f key :
  keyvalue.Get f key = default "" (index f key).
Proof.
  unfold keyvalue.Get. destruct f as [m|]; simpl.
  - destruct (index (Some m) key) as [v|]; simpl; [|reflexivity].
    destruct (len v =? 0) eqn:E; [|reflexivity].
    apply len_eqb_zero in E. now subst v.
  - now rewrite index_nil.
Qed.

(** C7. For every Form, the nil Form included, and every key, [Get]
    returns the empty string when the key is absent or stored with the
    empty string, and the stored value otherwise; so [Get] gives the same
    answer for a key stored with the empty string and for that key
    removed. *)
Theorem Get_absent_or_empty f key :
  (index f key = None ∨ index f key = Some "" → keyvalue.Get f key = "")
  ∧ (∀ v, index f key = Some v → keyvalue.Get f key = v)
  ∧ keyvalue.Get None key = ""
  ∧ (index f key = Some "" →
     keyvalue.Get f key = keyvalue.Get (keyvalue.Del f key) key).
Proof.
  rewrite !Get_spec. repeat split.
  - intros [H|H]; now rewrite H.
  - intros v H. now rewrite H.
  - intros H. rewrite H. simpl.
    destruct f as [m|]; simpl; [|now rewrite index_nil].
    unfold index. simpl. now rewrite lookup_delete_eq.
Qed.

Lemma Get_absent_or_empty_witness :
  keyvalue.Get (Some (<[ "mode" := "" ]> foo_bar)) "mode" = ""
  ∧ keyvalue.Get (Some foo_bar) "mode" = ""
  ∧ keyvalue.Get (Some foo_bar) "foo" = "bar".
Proof.
  split; [|split].
  - apply (proj1 (Get_absent_or_empty _ "mode")). right. reflexivity.
  - apply (proj1 (Get_absent_or_empty _ "mode")). left. reflexivity.
  - apply (proj1 (proj2 (Get_absent_or_empty _ "foo"))). reflexivity.
Defined.

(** C8, as the claim has it, fails: [Set] on a nil Form does not insert
    the entry, it panics (an assignment to an entry of a nil map). *)
Lemma Set_nil_panics :
  ¬ (∀ f key value, ∃ f', keyvalue.Set_ f key value = Ret f').
Proof.
  intros H. destruct (H None "mode" "error") as [f' Hf']. discriminate Hf'.
Qed.

(** C8, amended. [Get] and [Del] never fail, on any Form, the nil one
    included: [Get] returns a string, [Del] leaves a Form without the key
    and with every other entry unchanged, and changes nothing when the
    key is absent. [Set] on a Form that is not nil never fails: it leaves
    the Form with the key bound to the value and every other entry
    unchanged. *)
Theorem Get_Set_Del_total f key value :
  keyvalue.Get f key = default "" (index f key)
  ∧ index (keyvalue.Del f key) key = None
  ∧ (∀ k, k ≠ key → index (keyvalue.Del f key) k = index f k)
  ∧ is_nil (keyvalue.Del f key) = is_nil f
  ∧ (index f key = None → keyvalue.Del f key = f)
  ∧ (is_nil f = false →
     ∃ f', keyvalue.Set_ f key value = Ret f'
           ∧ is_nil f' = false
           ∧ index f' key = Some value
           ∧ ∀ k, k ≠ key → index f' k = index f k).
Proof.
  split; [apply Get_spec|].
  destruct f as [m|]; unfold index; simpl.
  - split; [apply lookup_delete_eq|].
    split; [intros k Hk; now apply lookup_delete_ne|].
    split; [reflexivity|].
    split; [intros H; f_equal; now apply delete_id|].
    intros _. eexists. split; [reflexivity|]. simpl.
    split; [reflexivity|].
    split; [apply lookup_insert_eq|].
    intros k Hk. now apply lookup_insert_ne.
  - split; [apply lookup_empty|].
    split; [reflexivity|].
    split; [reflexivity|].
    split; [reflexivity|].
    intros H. discriminate H.
Qed.

Lemma Get_Set_Del_total_witness :
  ∃ f', keyvalue.Set_ (Some foo_bar) "mode" "error" = Ret f'
        ∧ is_nil f' = false
        ∧ index f' "mode" = Some "error"
        ∧ ∀ k, k ≠ "mode" → index f' k = index (Some foo_bar) k.
Proof.
  apply (Get_Set_Del_total (Some foo_bar) "mode" "error"). reflexivity.
Defined.

End Accessors.

(** ** Plain serialization *)

Section Serialize.

Implicit Types (f : gomap) (m : gmap string string).
Implicit Types (order : list (string * string)) (buf : Buffer.t).

Lemma String_write_line buf kv :
  Buffer.String (keyvalue.write_line buf kv) = Buffer.String buf +:+ line kv.
Proof.
  unfold keyvalue.write_line, line.
  rewrite !String_WriteString, String_WriteRune_colon, String_WriteString.
  now rewrite !append_assoc.
Qed.

Lemma String_write_lines order buf :
  Buffer.String (fold_left keyvalue.write_line order buf)
  = Buffer.String buf +:+ concat_all (map line order).
Proof.
  revert buf. induction order as [|kv order IH]; intros buf; simpl.
  - now rewrite append_empty_r.
  - now rewrite IH, String_write_line, append_assoc.
Qed.

Lemma size_loop_nonneg order (n : Z) :
  0 <= n →
  0 <= fold_left
         (fun n kv => n + (len (fst kv) + len (snd kv)
                           + utf8.RuneLen keyvalue.colon + len keyvalue.newline))
         order n.
Proof.
  revert n. induction order as [|kv order IH]; intros n Hn; simpl; [exact Hn|].
  apply IH. pose proof (len_nonneg (fst kv)). pose proof (len_nonneg (snd kv)).
  change (utf8.RuneLen keyvalue.colon) with 1.
  change (len keyvalue.newline) with 1. lia.
Qed.

Lemma maplen_zero f : (maplen f =? 0) = true ↔ entries f = ∅.
Proof.
  unfold maplen. rewrite Z.eqb_eq, <- map_size_empty_iff. lia.
Qed.

Lemma String_range_empty f order1 order2 :
  is_nil f = true ∨ entries f = ∅ →
  keyvalue.String_range f order1 order2 = Ret "".
Proof.
  intros H. unfold keyvalue.String_range.
  destruct H as [-> | H]; [reflexivity|].
  apply maplen_zero in H. rewrite H. now rewrite orb_true_r.
Qed.

Lemma String_range_lines f order1 order2 :
  entries f ≠ ∅ →
  keyvalue.String_range f order1 order2 = Ret (concat_all (map line order2)).
Proof.
  intros H. unfold keyvalue.String_range.
  destruct f as [m|]; [|now destruct H]. simpl.
  destruct (maplen (Some m) =? 0) eqn:E; [apply maplen_zero in E; contradiction|].
  rewrite Grow_nonneg by (apply size_loop_nonneg; lia). simpl.
  now rewrite String_write_lines.
Qed.

Lemma ranges_exists f : ranges f (map_to_list (entries f)).
Proof. unfold ranges. reflexivity. Qed.

Lemma ranges_singleton k v order :
  ranges (Some {[ k := v ]}) order → order = [(k, v)].
Proof.
  unfold ranges. simpl. rewrite map_to_list_singleton.
  intros H. now apply Permutation_singleton_r in H.
Qed.

(** C4. [String] always returns; for a nil or empty Form it returns the
    empty string; for a non-empty Form it returns the lines key, colon,
    value, newline of the entries written one after the other, each entry
    of the Form once, in some order. The Form with the one entry foo, bar
    gives the line foo:bar and a newline. *)
Theorem String_lines f :
  (∃ out, keyvalue.String f out)
  ∧ (∀ out, keyvalue.String f out →
       (is_nil f = true ∨ entries f = ∅ → out = Ret "")
       ∧ (entries f ≠ ∅ →
          ∃ order, order ≡ₚ map_to_list (entries f)
                   ∧ out = Ret (concat_all (map line order))))
  ∧ (∀ out, keyvalue.String (Some foo_bar) out →
       out = Ret ("foo:bar" +:+ LF)).
Proof.
  split; [|split].
  - exists (keyvalue.String_range f (map_to_list (entries f))
                                    (map_to_list (entries f))).
    exists (map_to_list (entries f)), (map_to_list (entries f)).
    auto using ranges_exists.
  - intros out (order1 & order2 & H1 & H2 & <-). split.
    + apply String_range_empty.
    + intros Hne. exists order2. split; [exact H2|].
      now apply String_range_lines.
  - intros out (order1 & order2 & H1 & H2 & <-).
    apply ranges_singleton in H2. subst order2.
    rewrite String_range_lines; [reflexivity|].
    simpl. unfold foo_bar. apply insert_non_empty.
Qed.

Lemma String_lines_witness :
  keyvalue.String_range None [] [] = Ret ""
  ∧ keyvalue.String_range (Some foo_bar) (map_to_list foo_bar) (map_to_list foo_bar)
    = Ret ("foo:bar" +:+ LF).
Proof.
  split.
  - apply (proj1 (proj2 (String_lines None))).
    + exists [], []. repeat split; unfold ranges; simpl;
        now rewrite map_to_list_empty.
    + left. reflexivity.
  - apply (proj2 (proj2 (String_lines (Some foo_bar)))).
    exists (map_to_list foo_bar), (map_to_list foo_bar).
    repeat split; apply (ranges_exists (Some foo_bar)).
Defined.

End Serialize.

(** ** Signed-subset serialization *)

Section Signed.

Implicit Types (f : gomap) (m : gmap string string) (buf : Buffer.t).
Implicit Types (fields : list string) (k v : string).

Lemma SignedString_size_missing f fields (n : Z) :
  (∃ k, k ∈ fields ∧ (index f k = None ∨ index f k = Some "")) →
  keyvalue.SignedString_size f fields n = None.
Proof.
  revert n. induction fields as [|k0 fields IH]; intros n (k & Hin & Hbad).
  - inversion Hin.
  - simpl. destruct (index f k0) as [v0|] eqn:E0; [|reflexivity].
    destruct (len v0 =? 0) eqn:El; [reflexivity|].
    apply IH. apply elem_of_cons in Hin as [-> | Hin]; [|eauto].
    destruct Hbad as [Hbad | Hbad]; rewrite E0 in Hbad; [discriminate|].
    inversion Hbad; subst v0. discriminate El.
Qed.

Lemma SignedString_size_present f fields (n : Z) :
  0 <= n →
  (∀ k, k ∈ fields → signable f k) →
  ∃ n', keyvalue.SignedString_size f fields n = Some n' ∧ 0 <= n'.
Proof.
  revert n. induction fields as [|k0 fields IH]; intros n Hn Hall; simpl.
  - eauto.
  - destruct (Hall k0) as (v0 & E0 & Hv0); [left|]. rewrite E0.
    destruct (len v0 =? 0) eqn:El; [apply len_eqb_zero in El; contradiction|].
    apply IH.
    + pose proof (len_nonneg k0). pose proof (len_nonneg v0).
      change (len keyvalue.prefix) with 7.
      change (utf8.RuneLen keyvalue.colon) with 1.
      change (len keyvalue.newline) with 1. lia.
    + intros k Hk. apply Hall. now right.
Qed.

Lemma String_signed_lines f fields buf :
  Buffer.String
    (fold_left
       (fun buf k =>
          let buf := Buffer.WriteString buf keyvalue.prefix in
          let buf := Buffer.WriteString buf k in
          let buf := Buffer.WriteRune buf keyvalue.colon in
          let buf := Buffer.WriteString buf (keyvalue.Get f k) in
          Buffer.WriteString buf keyvalue.newline)
       fields buf)
  = Buffer.String buf
    +:+ concat_all (map (fun k => signed_line k (keyvalue.Get f k)) fields).
Proof.
  revert buf. induction fields as [|k fields IH]; intros buf; simpl.
  - now rewrite append_empty_r.
  - rewrite IH. rewrite !String_WriteString, String_WriteRune_colon,
      !String_WriteString.
    unfold signed_line. now rewrite !append_assoc.
Qed.

(** C1. For a SignedForm whose Form is not empty and holds every listed
    field with a value that is not empty, [SignedString] returns the lines
    prefix, field name, colon, value, newline of the listed fields written
    one after the other in the order of the list: the order of the list
    alone decides the order of the lines. *)
Theorem SignedString_in_list_order m fields (value : string → string) :
  m ≠ ∅ →
  (∀ k, k ∈ fields → m !! k = Some (value k) ∧ value k ≠ "") →
  keyvalue.SignedString (keyvalue.mkSignedForm (Some m) fields)
  = Ret (concat_all (map (fun k => signed_line k (value k)) fields)).
Proof.
  intros Hne Hall. unfold keyvalue.SignedString. simpl.
  destruct (maplen (Some m) =? 0) eqn:E; [apply maplen_zero in E; contradiction|].
  destruct (SignedString_size_present (Some m) fields 0) as (n & -> & Hn);
    [lia | intros k Hk; exists (value k); now apply Hall |].
  rewrite Grow_nonneg by exact Hn. simpl.
  rewrite String_signed_lines. f_equal.
  change (Buffer.String Buffer.empty +:+ ?x) with x.
  f_equal. apply map_ext_in. intros k Hk.
  apply list_elem_of_In in Hk. destruct (Hall k Hk) as [Hv _].
  f_equal. rewrite Get_spec. unfold index. simpl. now rewrite Hv.
Qed.

(** The example of the specification: fields santa, foo over the mapping
    of foo to bar and santa to banta. *)
Lemma SignedString_in_list_order_witness :
  keyvalue.SignedString (keyvalue.mkSignedForm (Some foo_santa) ["santa"; "foo"])
  = Ret ("openid.santa:banta" +:+ LF +:+ "openid.foo:bar" +:+ LF).
Proof.
  apply (SignedString_in_list_order foo_santa ["santa"; "foo"]
           (fun k => if String.eqb k "santa" then "banta" else "bar")).
  - unfold foo_santa. apply insert_non_empty.
  - intros k Hk.
    apply elem_of_cons in Hk as [-> | Hk];
      [| apply elem_of_cons in Hk as [-> | Hk]; [| inversion Hk]];
      split; try discriminate; vm_compute; reflexivity.
Defined.

(** C2. [SignedString] is all or nothing: when the Form is nil or empty,
    or when some listed field is absent from the Form or stored with the
    empty string, it returns the empty string. *)
Theorem SignedString_all_or_nothing (s : keyvalue.SignedForm) :
  is_nil (keyvalue.form s) = true
  ∨ entries (keyvalue.form s) = ∅
  ∨ (∃ k, k ∈ keyvalue.Fields s
          ∧ (index (keyvalue.form s) k = None
             ∨ index (keyvalue.form s) k = Some "")) →
  keyvalue.SignedString s = Ret "".
Proof.
  intros H. unfold keyvalue.SignedString.
  destruct (is_nil (keyvalue.form s)) eqn:Enil; [reflexivity|]. simpl.
  destruct (maplen (keyvalue.form s) =? 0) eqn:Elen; [reflexivity|].
  destruct H as [H | [H | H]].
  - discriminate H.
  - apply maplen_zero in H. congruence.
  - now rewrite (SignedString_size_missing _ _ 0 H).
Qed.

Lemma SignedString_all_or_nothing_witness :
  keyvalue.SignedString (keyvalue.mkSignedForm (Some foo_bar) ["foo"; "santa"])
  = Ret "".
Proof.
  apply SignedString_all_or_nothing. right. right.
  exists "santa". split.
  - simpl. right. left.
  - left. vm_compute. reflexivity.
Defined.

Lemma fold_len_shift fields (n : Z) :
  fold_left (fun n k => n + len k) fields n
  = n + fold_left (fun n k => n + len k) fields 0.
Proof.
  revert n. induction fields as [|k fields IH]; intros n; simpl; [lia|].
  rewrite IH, (IH (0 + len k)). lia.
Qed.

Lemma fold_len_nonneg fields :
  0 <= fold_left (fun n k => n + len k) fields 0.
Proof.
  induction fields as [|k fields IH]; simpl; [lia|].
  rewrite fold_len_shift. pose proof (len_nonneg k). lia.
Qed.

(** The second loop of [SignedFields]: with [n] the length of the buffer
    plus what the remaining fields and the commas between them take, the
    loop writes the remaining fields joined by commas. *)
Lemma SignedFields_loop fields buf (n : Z) :
  fields ≠ [] →
  n = Buffer.Len buf + fold_left (fun n k => n + len k) fields 0
      + (Z.of_nat (length fields) - 1) →
  Buffer.String
    (fold_left
       (fun buf k =>
          let buf := Buffer.WriteString buf k in
          if Buffer.Len buf <? n then Buffer.WriteRune buf keyvalue.comma
          else buf)
       fields buf)
  = Buffer.String buf +:+ join "," fields.
Proof.
  revert buf. induction fields as [|k fields IH]; intros buf Hne Hn;
    [contradiction|].
  destruct fields as [|k' fields].
  - simpl in *. rewrite Len_WriteString.
    destruct (Buffer.Len buf + len k <? n) eqn:E; [apply Z.ltb_lt in E; lia|].
    apply String_WriteString.
  - change (join "," (k :: k' :: fields))
      with (k +:+ "," +:+ join "," (k' :: fields)).
    pose proof (fold_len_nonneg fields). pose proof (len_nonneg k').
    cbn [fold_left length] in Hn. rewrite fold_len_shift in Hn.
    change (fold_left ?g (k :: ?l) buf)
      with (fold_left g l (g buf k)).
    cbv beta zeta. rewrite Len_WriteString.
    destruct (Buffer.Len buf + len k <? n) eqn:E; [|apply Z.ltb_ge in E; lia].
    rewrite IH.
    + rewrite String_WriteRune_comma, String_WriteString.
      now rewrite !append_assoc.
    + discriminate.
    + rewrite Len_WriteRune_comma, Len_WriteString.
      cbn [fold_left length]. rewrite (fold_len_shift fields (0 + len k')).
      lia.
Qed.

(** C5. [SignedFields] returns the field names, without prefix, in the
    order of the list, with one comma between consecutive names and none
    before the first or after the last; the empty list gives the empty
    string, and the fields santa, foo give santa,foo. This holds for all
    field names, empty ones included. *)
Theorem SignedFields_joined (s : keyvalue.SignedForm) :
  keyvalue.SignedFields s = Ret (join "," (keyvalue.Fields s))
  ∧ keyvalue.SignedFields (keyvalue.mkSignedForm (keyvalue.form s) []) = Ret ""
  ∧ keyvalue.SignedFields
      (keyvalue.mkSignedForm (keyvalue.form s) ["santa"; "foo"])
    = Ret "santa,foo".
Proof.
  assert (H : ∀ s, keyvalue.SignedFields s = Ret (join "," (keyvalue.Fields s))).
  { clear s. intros [f fields]. unfold keyvalue.SignedFields.
    cbn [keyvalue.Fields].
    destruct fields as [|k fields]; [reflexivity|].
    assert (Hlen : (0 < length (k :: fields))%nat) by (simpl; lia).
    assert (Hl : k :: fields ≠ []) by discriminate.
    generalize dependent (k :: fields). clear k fields. intros l Hlen Hl.
    destruct (Z.of_nat (length l) =? 0) eqn:E; [apply Z.eqb_eq in E; lia|].
    change (utf8.RuneLen keyvalue.comma) with 1.
    pose proof (fold_len_nonneg l).
    rewrite Grow_nonneg by lia. cbn [bind].
    rewrite SignedFields_loop; [reflexivity | exact Hl |].
    change (Buffer.Len Buffer.empty) with 0. lia. }
  split; [apply H|]. split; [reflexivity|].
  exact (H (keyvalue.mkSignedForm (keyvalue.form s) ["santa"; "foo"])).
Qed.

End Signed.

(** ** Validation *)

Section Validation.

Implicit Types (f : gomap) (m : gmap string string) (k v s : string).
Implicit Types (order : list (string * string)).

Lemma IndexByte_from_found (p : list Z) (c i : Z) :
  0 <= i → (0 <=? strings.IndexByte_from p c i) = existsb (Z.eqb c) p.
Proof.
  revert i. induction p as [|b p IH]; intros i Hi; simpl; [reflexivity|].
  rewrite (Z.eqb_sym c b). destruct (b =? c); simpl.
  - now apply Z.leb_le.
  - apply IH. lia.
Qed.

Lemma ContainsRune_contains s (c : Z) :
  0 <= c < 256 → strings.ContainsRune s c = contains s c.
Proof.
  intros Hc. unfold strings.ContainsRune, strings.IndexByte, contains, to_byte.
  rewrite Z.mod_small by (simpl; lia). now apply IndexByte_from_found.
Qed.

Lemma IsSpace_first s :
  unicode.IsSpace (fst (utf8.DecodeRuneInString s)) = begins_with_space s.
Proof.
  unfold begins_with_space, runes, utf8.DecodeRuneInString.
  destruct (bytes s) as [|b p]; [reflexivity|].
  cbn [length runes_of]. now destruct (utf8.DecodeRune (b :: p)).
Qed.

Lemma IsSpace_last s :
  utf8.ValidString s = true →
  unicode.IsSpace (fst (utf8.DecodeLastRuneInString s)) = ends_with_space s.
Proof.
  intros Hv. unfold ends_with_space, runes, utf8.DecodeLastRuneInString.
  rewrite DecodeLastRune_valid by (apply bytes_range || exact Hv).
  now destruct (last (runes_of (length (bytes s)) (bytes s))).
Qed.

Lemma Validate_entry_violates k v :
  keyvalue.Validate_entry k v = None ↔ violates k v = false.
Proof.
  unfold keyvalue.Validate_entry, violates.
  destruct (len v =? 0); [simpl; split; discriminate|].
  destruct (utf8.ValidString k) eqn:Ek; [|simpl; split; discriminate].
  destruct (utf8.ValidString v) eqn:Ev; [|simpl; split; discriminate].
  rewrite !ContainsRune_contains by lia.
  rewrite !IsSpace_first, !IsSpace_last by assumption. simpl.
  destruct (contains k 10); [simpl; rewrite ?orb_true_r; split; discriminate|].
  destruct (contains k 58); [simpl; split; discriminate|]. simpl.
  destruct (ends_with_space k);
    [simpl; rewrite ?orb_true_r; simpl; split; discriminate|].
  destruct (begins_with_space k); [simpl; split; discriminate|]. simpl.
  destruct (ends_with_space v);
    [simpl; rewrite ?orb_true_r; split; discriminate|].
  destruct (begins_with_space v); [simpl; split; discriminate|].
  simpl. tauto.
Qed.

Lemma Validate_range_ok order :
  keyvalue.Validate_range order = None
  ↔ ∀ k v, (k, v) ∈ order → violates k v = false.
Proof.
  induction order as [|[k0 v0] order IH]; simpl.
  - split; [intros _ k v H; inversion H | reflexivity].
  - destruct (keyvalue.Validate_entry k0 v0) as [e|] eqn:E.
    + split; [discriminate|]. intros H.
      assert (Hv : violates k0 v0 = false) by (apply H; left).
      apply Validate_entry_violates in Hv. congruence.
    + apply Validate_entry_violates in E. rewrite IH. split.
      * intros H k v Hin. apply elem_of_cons in Hin as [Heq | Hin];
          [inversion Heq; now subst | now apply H].
      * intros H k v Hin. apply H. now right.
Qed.

Lemma ranges_elem f order k v :
  ranges f order → ((k, v) ∈ order ↔ index f k = Some v).
Proof.
  unfold ranges, index. intros H. rewrite H. apply elem_of_map_to_list.
Qed.

Lemma Validate_ok f err :
  keyvalue.Validate f err →
  (err = None ↔ ∀ k v, index f k = Some v → violates k v = false).
Proof.
  intros (order & Hr & <-). rewrite Validate_range_ok. split.
  - intros H k v Hkv. apply H. now apply (ranges_elem f order).
  - intros H k v Hkv. apply H. now apply (ranges_elem f order) in Hkv.
Qed.

Lemma Validate_returns f : ∃ err, keyvalue.Validate f err.
Proof.
  exists (keyvalue.Validate_range (map_to_list (entries f))).
  exists (map_to_list (entries f)). split; [apply ranges_exists | reflexivity].
Qed.

(** C3. [Validate] always returns, and it returns an error exactly when
    some entry of the Form breaks a rule: an empty value, a key or a value
    that is not valid UTF-8, a colon or a newline in the key, white space
    as first or last character of the key or of the value. It returns no
    error for the nil and the empty mapping and for the mapping of foo to
    bar. *)
Theorem Validate_error_iff_violation f :
  (∃ err, keyvalue.Validate f err)
  ∧ (∀ err, keyvalue.Validate f err →
       (err ≠ None ↔ ∃ k v, index f k = Some v ∧ violates k v = true))
  ∧ (∀ err, keyvalue.Validate None err ∨ keyvalue.Validate (Some ∅) err
            ∨ keyvalue.Validate (Some foo_bar) err → err = None).
Proof.
  split; [apply Validate_returns|]. split.
  - intros err Hv. pose proof (Validate_ok f err Hv) as Hok. split.
    + intros Herr.
      destruct (decide (Exists (fun kv => violates kv.1 kv.2 = true)
                          (map_to_list (entries f)))) as [Hex | Hnex].
      * apply Exists_exists in Hex as ([k v] & Hin & Hviol).
        exists k, v. split; [|exact Hviol].
        now apply elem_of_map_to_list in Hin.
      * exfalso. apply Herr, Hok. intros k v Hkv.
        destruct (violates k v) eqn:E; [|reflexivity].
        exfalso. apply Hnex, Exists_exists. exists (k, v).
        split; [now apply elem_of_map_to_list | exact E].
    + intros (k & v & Hkv & Hviol) Herr.
      rewrite (proj1 Hok Herr k v Hkv) in Hviol. discriminate.
  - intros err [H | [H | H]]; apply (Validate_ok _ _ H); intros k v Hkv.
    + rewrite index_nil in Hkv. discriminate.
    + unfold index in Hkv. simpl in Hkv. rewrite lookup_empty in Hkv.
      discriminate.
    + unfold index, foo_bar in Hkv. simpl in Hkv.
      apply lookup_singleton_Some in Hkv as [<- <-]. vm_compute. reflexivity.
Qed.

Lemma Validate_error_iff_violation_witness :
  keyvalue.Validate_range (map_to_list foo_bar) = None
  ∧ keyvalue.Validate_range [("foo ", "bar")] ≠ None.
Proof.
  split.
  - apply (proj2 (proj2 (Validate_error_iff_violation None))).
    right. right. exists (map_to_list foo_bar).
    split; [apply (ranges_exists (Some foo_bar)) | reflexivity].
  - apply (proj1 (proj2 (Validate_error_iff_violation
                           (Some {[ "foo " := "bar" ]})))).
    + exists [("foo ", "bar")]. split; [|reflexivity].
      unfold ranges. simpl. now rewrite map_to_list_singleton.
    + exists "foo ", "bar". split; [|vm_compute; reflexivity].
      unfold index. simpl. apply lookup_singleton_eq.
Defined.

End Validation.

Section EmptyKeyAndValues.

Implicit Types (f : gomap) (m : gmap string string) (k v s : string).
Implicit Types (order : list (string * string)).

Lemma violates_rules k v :
  violates k v = false ↔ key_ok k = true ∧ value_ok v = true.
Proof.
  unfold violates, key_ok, value_ok.
  destruct (len v =? 0), (utf8.ValidString k), (utf8.ValidString v),
    (contains k 58), (contains k 10), (begins_with_space k),
    (ends_with_space k), (begins_with_space v), (ends_with_space v);
    simpl; intuition discriminate.
Qed.

(** C6. A colon or a newline inside a value is not rejected: when every
    entry of the Form meets the rules on keys and on values (a value that
    is not empty, valid UTF-8, no colon or newline in the key, no white
    space at either end of the key or of the value) and some value holds
    a colon or a newline at a place that is neither its first nor its
    last, [Validate] returns no error. *)
Theorem Validate_accepts_separator_in_value f err :
  keyvalue.Validate f err →
  (∀ k v, index f k = Some v → key_ok k = true ∧ value_ok v = true) →
  (∃ k v, index f k = Some v
          ∧ (contains_inside v 0x3A = true ∨ contains_inside v 0x0A = true)) →
  err = None.
Proof.
  intros Hv Hall _. apply (Validate_ok f err Hv). intros k v Hkv.
  apply violates_rules. now apply Hall.
Qed.

Lemma Validate_accepts_separator_in_value_witness :
  keyvalue.Validate_range
    [("foo", "b:a" +:+ LF +:+ "r")] = None.
Proof.
  apply (Validate_accepts_separator_in_value
           (Some {[ "foo" := "b:a" +:+ LF +:+ "r" ]})).
  - eexists. split; [|reflexivity].
    unfold ranges. simpl. now rewrite map_to_list_singleton.
  - intros k v Hkv. unfold index in Hkv. simpl in Hkv.
    apply lookup_singleton_Some in Hkv as [<- <-].
    split; vm_compute; reflexivity.
  - exists "foo", ("b:a" +:+ LF +:+ "r").
    split; [apply lookup_singleton_eq | left; vm_compute; reflexivity].
Defined.

Lemma concat_all_app (l1 l2 : list string) :
  concat_all (l1 ++ l2) = concat_all l1 +:+ concat_all l2.
Proof.
  induction l1 as [|x l1 IH]; [reflexivity|].
  cbn [app]. unfold concat_all in *. cbn [foldr]. rewrite IH.
  now rewrite append_assoc.
Qed.

Lemma key_ok_empty : key_ok "" = true.
Proof. vm_compute. reflexivity. Qed.

(** C10. An entry whose key is the empty string is accepted: reading the
    first or the last rune of the empty key gives [RuneError], which is
    not white space, so with a value that meets the rules on values the
    entry passes the checks of [Validate]; a Form holding it is then
    valid exactly when the Form without it is, so it is valid when its
    other entries meet the rules, and the Form holding only it is valid. [String] writes the entry as a colon, the value and a
    newline. *)
Theorem Validate_accepts_empty_key f v :
  index f "" = Some v → value_ok v = true →
  utf8.DecodeRuneInString "" = (utf8.RuneError, 0)
  ∧ utf8.DecodeLastRuneInString "" = (utf8.RuneError, 0)
  ∧ unicode.IsSpace utf8.RuneError = false
  ∧ keyvalue.Validate_entry "" v = None
  ∧ (∀ err err', keyvalue.Validate f err →
                 keyvalue.Validate (keyvalue.Del f "") err' →
                 (err = None ↔ err' = None))
  ∧ (∀ err, keyvalue.Validate f err →
            (∀ k v', k ≠ "" → index f k = Some v' → violates k v' = false) →
            err = None)
  ∧ (∀ err, keyvalue.Validate (Some {[ "" := v ]}) err → err = None)
  ∧ (∀ out, keyvalue.String (Some {[ "" := v ]}) out →
            out = Ret (":" +:+ v +:+ LF))
  ∧ (∀ out, keyvalue.String f out →
            ∃ before after,
              out = Ret (before +:+ (":" +:+ v +:+ LF)
                         +:+ after)).
Proof.
  intros Hidx Hval.
  assert (Hno : violates "" v = false)
    by (apply violates_rules; split; [apply key_ok_empty | exact Hval]).
  split; [reflexivity|]. split; [reflexivity|]. split; [reflexivity|].
  split; [now apply Validate_entry_violates|].
  split; [|split; [|split; [|split]]].
  - intros err err' Hv Hv'.
    rewrite (Validate_ok _ _ Hv), (Validate_ok _ _ Hv'). split.
    + intros H k v' Hkv. apply H.
      destruct f as [m|]; [|now rewrite index_nil in Hidx].
      unfold index in *. simpl in *.
      apply lookup_delete_Some in Hkv. tauto.
    + intros H k v' Hkv. destruct (decide (k = "")) as [-> | Hne].
      * rewrite Hidx in Hkv. inversion Hkv; now subst.
      * apply H. destruct f as [m|]; [|now rewrite index_nil in Hidx].
        unfold index in *. simpl in *. now rewrite lookup_delete_ne.
  - intros err Hv Hothers. apply (Validate_ok _ _ Hv). intros k v' Hkv.
    destruct (decide (k = "")) as [-> | Hne]; [|now apply Hothers].
    rewrite Hidx in Hkv. inversion Hkv; now subst.
  - intros err Hv. apply (Validate_ok _ _ Hv). intros k v' Hkv.
    unfold index in Hkv. simpl in Hkv.
    apply lookup_singleton_Some in Hkv as [<- <-]. exact Hno.
  - intros out (order1 & order2 & H1 & H2 & <-).
    apply ranges_singleton in H2. subst order2.
    rewrite String_range_lines by (simpl; apply insert_non_empty).
    unfold concat_all, line. simpl. now rewrite append_empty_r.
  - intros out (order1 & order2 & H1 & H2 & <-).
    assert (Hne : entries f ≠ ∅).
    { intros E. unfold index in Hidx. rewrite E, lookup_empty in Hidx.
      discriminate. }
    rewrite String_range_lines by exact Hne.
    assert (Hin : ("", v) ∈ order2) by now apply (ranges_elem f order2).
    apply list_elem_of_split in Hin as (l1 & l2 & ->).
    exists (concat_all (map line l1)), (concat_all (map line l2)).
    rewrite map_app, concat_all_app. reflexivity.
Qed.

Lemma Validate_accepts_empty_key_witness :
  keyvalue.Validate_entry "" "bar" = None
  ∧ (∀ out, keyvalue.String (Some {[ "" := "bar" ]}) out →
            out = Ret (":bar" +:+ LF)).
Proof.
  pose proof (Validate_accepts_empty_key (Some {[ "" := "bar" ]}) "bar"
                (lookup_singleton_eq _ _) eq_refl)
    as (_ & _ & _ & H1 & _ & _ & _ & H2 & _).
  split; [exact H1 | exact H2].
Defined.

End EmptyKeyAndValues.

(** ** Message and Form *)

Section MessageForm.

Implicit Types (m : gomap) (key value : string).

Lemma message_String_is_Form_String m (out : outcome string) :
  message.String m out ↔ keyvalue.String m out.
Proof. reflexivity. Qed.

Lemma String_outcome m (out : outcome string) :
  keyvalue.String m out →
  ∃ order, ranges m order ∧ out = Ret (concat_all (map line order)).
Proof.
  intros (order1 & order2 & H1 & H2 & <-).
  destruct (decide (entries m = ∅)) as [E | E].
  - exists []. split.
    + unfold ranges. now rewrite E, map_to_list_empty.
    + apply String_range_empty. now right.
  - exists order2. split; [exact H2 | now apply String_range_lines].
Qed.

(** C9. Message and Form behave alike on every mapping: [Validate] on a
    Message returns an error exactly when [Validate] on the Form does,
    whatever the orders in which the two loops meet the entries, and with
    the same order it returns the same error; [String] on a Message and
    on the Form write the same lines, the same string when the entries
    are met in the same order; [Get], [Set] and [Del] give the same
    result. *)
Theorem Message_behaves_as_Form m key value :
  (∀ err err', message.Validate m err → keyvalue.Validate m err' →
               (err = None ↔ err' = None))
  ∧ (∀ order, message.Validate_range order = keyvalue.Validate_range order)
  ∧ (∀ err, message.Validate m err ↔ keyvalue.Validate m err)
  ∧ (∀ order1 order2, message.String_range m order1 order2
                      = keyvalue.String_range m order1 order2)
  ∧ (∀ out, message.String m out ↔ keyvalue.String m out)
  ∧ (∀ out out', message.String m out → keyvalue.String m out' →
       ∃ order order',
         order ≡ₚ order'
         ∧ out = Ret (concat_all (map line order))
         ∧ out' = Ret (concat_all (map line order')))
  ∧ message.Get m key = keyvalue.Get m key
  ∧ message.Set_ m key value = keyvalue.Set_ m key value
  ∧ message.Del m key = keyvalue.Del m key.
Proof.
  split; [|split; [|split; [|split; [|split; [|split]]]]].
  - intros err err' H H'. change (keyvalue.Validate m err) in H.
    rewrite (Validate_ok _ _ H), (Validate_ok _ _ H'). reflexivity.
  - reflexivity.
  - reflexivity.
  - reflexivity.
  - reflexivity.
  - intros out out' H H'. apply message_String_is_Form_String in H.
    apply String_outcome in H as (order & Hr & ->).
    apply String_outcome in H' as (order' & Hr' & ->).
    exists order, order'. split; [|split; reflexivity].
    unfold ranges in *. now rewrite Hr, Hr'.
  - repeat split.
Qed.

Lemma Message_behaves_as_Form_witness :
  message.Validate_range (map_to_list foo_santa) = None
  ↔ keyvalue.Validate_range (rev (map_to_list foo_santa)) = None.
Proof.
  apply (proj1 (Message_behaves_as_Form (Some foo_santa) "" "")).
  - exists (map_to_list foo_santa).
    split; [apply (ranges_exists (Some foo_santa)) | reflexivity].
  - exists (rev (map_to_list foo_santa)). split; [|reflexivity].
    change (rev (map_to_list foo_santa) ≡ₚ map_to_list foo_santa).
    symmetry. apply Permutation_rev.
Defined.

End MessageForm.

(** * Further properties of the package *)

(** ** Accessors compose *)

Lemma ranges_Some (m : gmap string string) : ranges (Some m) (map_to_list m).
Proof. unfold ranges. reflexivity. Qed.

Section AccessorsCompose.

Implicit Types (f : gomap) (m : gmap string string) (key value k v : string).

(** X1. On a Form that is not nil, [Set] then [Get] of the same key gives
    back the value that was set (the empty string when the empty string
    was set), and [Get] of any other key is what it was before. *)
Theorem Set_then_Get f key value :
  is_nil f = false →
  ∃ f', keyvalue.Set_ f key value = Ret f'
        ∧ keyvalue.Get f' key = value
        ∧ ∀ k, k ≠ key → keyvalue.Get f' k = keyvalue.Get f k.
Proof.
  intros Hnil. destruct f as [m|]; [|discriminate Hnil].
  eexists. split; [reflexivity|]. split.
  - rewrite Get_spec. unfold index. simpl. now rewrite lookup_insert_eq.
  - intros k Hk. rewrite !Get_spec. unfold index. simpl.
    now rewrite lookup_insert_ne.
Qed.

Lemma Set_then_Get_witness :
  ∃ f', keyvalue.Set_ (Some foo_bar) "foo" "baz" = Ret f'
        ∧ keyvalue.Get f' "foo" = "baz"
        ∧ ∀ k, k ≠ "foo" → keyvalue.Get f' k = keyvalue.Get (Some foo_bar) k.
Proof. apply (Set_then_Get (Some foo_bar) "foo" "baz"). reflexivity. Defined.

(** X2. After [Del], [Get] of the key is the empty string and [Get] of
    every other key is unchanged; a second [Del] changes nothing; and
    [Del] undoes a [Set] of a key that was absent. *)
Theorem Del_then_Get f key value :
  keyvalue.Get (keyvalue.Del f key) key = ""
  ∧ (∀ k, k ≠ key → keyvalue.Get (keyvalue.Del f key) k = keyvalue.Get f k)
  ∧ keyvalue.Del (keyvalue.Del f key) key = keyvalue.Del f key
  ∧ (∀ f', index f key = None → keyvalue.Set_ f key value = Ret f' →
           keyvalue.Del f' key = f).
Proof.
  rewrite !Get_spec. destruct f as [m|]; unfold index; simpl.
  - split; [now rewrite lookup_delete_eq|].
    split; [intros k Hk; rewrite !Get_spec; unfold index; simpl;
            now rewrite lookup_delete_ne|].
    split; [f_equal; apply delete_id, lookup_delete_eq|].
    intros f' Habs Hset. inversion Hset; subst f'. simpl. f_equal.
    rewrite delete_insert_eq. now apply delete_id.
  - split; [now rewrite lookup_empty|].
    split; [reflexivity|]. split; [reflexivity|].
    intros f' _ Hset. discriminate Hset.
Qed.

Lemma Del_then_Get_witness :
  keyvalue.Del (Some (<[ "mode" := "error" ]> foo_bar)) "mode" = Some foo_bar.
Proof.
  apply (proj2 (proj2 (proj2 (Del_then_Get (Some foo_bar) "mode" "error")))).
  - reflexivity.
  - reflexivity.
Defined.

End AccessorsCompose.

(** ** The signed string as a whole *)

Section SignedWhole.

Implicit Types (f : gomap) (m : gmap string string) (buf : Buffer.t).
Implicit Types (fields : list string) (k v : string).

Lemma SignedString_size_None f fields (n : Z) :
  keyvalue.SignedString_size f fields n = None →
  ∃ k, k ∈ fields ∧ (index f k = None ∨ index f k = Some "").
Proof.
  revert n. induction fields as [|k0 fields IH]; intros n H; [discriminate H|].
  simpl in H. destruct (index f k0) as [v0|] eqn:E0.
  - destruct (len v0 =? 0) eqn:El.
    + apply len_eqb_zero in El. subst v0. exists k0. split; [left | now right].
    + destruct (IH _ H) as (k & Hin & Hbad). exists k. split; [now right | exact Hbad].
  - exists k0. split; [left | now left].
Qed.

Lemma SignedString_size_Some f fields (n n' : Z) :
  keyvalue.SignedString_size f fields n = Some n' →
  ∀ k, k ∈ fields → signable f k.
Proof.
  revert n. induction fields as [|k0 fields IH]; intros n H k Hin;
    [inversion Hin|].
  simpl in H. destruct (index f k0) as [v0|] eqn:E0; [|discriminate H].
  destruct (len v0 =? 0) eqn:El; [discriminate H|].
  apply elem_of_cons in Hin as [-> | Hin]; [|now apply (IH _ H)].
  exists v0. split; [exact E0|]. intros ->. discriminate El.
Qed.

Lemma signed_line_not_empty k v : signed_line k v ≠ "".
Proof. discriminate. Qed.

Lemma SignedString_signable f fields :
  is_nil f = false → entries f ≠ ∅ →
  (∀ k, k ∈ fields → signable f k) →
  keyvalue.SignedString (keyvalue.mkSignedForm f fields)
  = Ret (concat_all (map (fun k => signed_line k (keyvalue.Get f k)) fields)).
Proof.
  intros Hnil Hne Hall. unfold keyvalue.SignedString. simpl. rewrite Hnil. simpl.
  destruct (maplen f =? 0) eqn:E; [apply maplen_zero in E; contradiction|].
  destruct (SignedString_size_present f fields 0) as (n & -> & Hn);
    [lia | exact Hall |].
  rewrite Grow_nonneg by exact Hn. simpl.
  rewrite String_signed_lines. reflexivity.
Qed.

Lemma SignedString_returns_empty f fields :
  is_nil f = true ∨ entries f = ∅
  ∨ (∃ k, k ∈ fields ∧ (index f k = None ∨ index f k = Some "")) →
  keyvalue.SignedString (keyvalue.mkSignedForm f fields) = Ret "".
Proof.
  intros H. unfold keyvalue.SignedString. cbn [keyvalue.form keyvalue.Fields].
  destruct (is_nil f) eqn:Enil; [reflexivity|]. simpl.
  destruct (maplen f =? 0) eqn:Elen; [reflexivity|].
  destruct H as [H | [H | H]].
  - discriminate H.
  - apply maplen_zero in H. congruence.
  - now rewrite (SignedString_size_missing _ _ 0 H).
Qed.


(** X4. Only the listed fields matter: two Forms that are not empty and
    hold the same values for the listed fields have the same signed
    string, whatever else they hold. *)
Theorem SignedString_ignores_unlisted f f' fields :
  entries f ≠ ∅ → entries f' ≠ ∅ →
  (∀ k, k ∈ fields → index f k = index f' k) →
  keyvalue.SignedString (keyvalue.mkSignedForm f fields)
  = keyvalue.SignedString (keyvalue.mkSignedForm f' fields).
Proof.
  intros He He' Hagree.
  assert (Hn : ∀ g, entries g ≠ ∅ → is_nil g = false)
    by (intros [g|] Hg; [reflexivity | now destruct Hg]).
  destruct (keyvalue.SignedString_size f fields 0) as [n|] eqn:Esz.
  - pose proof (SignedString_size_Some _ _ _ _ Esz) as Hall.
    assert (Hall' : ∀ k, k ∈ fields → signable f' k).
    { intros k Hk. destruct (Hall k Hk) as (v & Hv & Hnv).
      exists v. now rewrite <- Hagree. }
    rewrite !SignedString_signable by auto.
    f_equal. f_equal. apply map_ext_in. intros k Hk.
    apply list_elem_of_In in Hk. rewrite !Get_spec. now rewrite Hagree.
  - apply SignedString_size_None in Esz as (k & Hin & Hbad).
    rewrite !SignedString_returns_empty; [reflexivity | |].
    + right. right. exists k. now rewrite <- Hagree.
    + right. right. now exists k.
Qed.

Lemma SignedString_ignores_unlisted_witness :
  keyvalue.SignedString (keyvalue.mkSignedForm (Some foo_santa) ["foo"])
  = keyvalue.SignedString (keyvalue.mkSignedForm (Some foo_bar) ["foo"]).
Proof.
  apply SignedString_ignores_unlisted.
  - unfold foo_santa. simpl. apply insert_non_empty.
  - unfold foo_bar. simpl. apply insert_non_empty.
  - intros k Hk. apply list_elem_of_singleton in Hk. subst k. reflexivity.
Defined.

End SignedWhole.

(** ** The sizes computed ahead are the sizes written *)

Section Preallocation.

Implicit Types (f : gomap) (order : list (string * string)).
Implicit Types (fields : list string) (k v s t : string).

Lemma len_append s t : len (s +:+ t) = len s + len t.
Proof.
  unfold len. rewrite <- !length_bytes, bytes_app, length_app. lia.
Qed.

Lemma len_line (kv : string * string) :
  len (line kv) = len (fst kv) + len (snd kv) + 2.
Proof.
  unfold line. rewrite !len_append.
  change (len ":") with 1. change (len LF) with 1. lia.
Qed.

Lemma len_signed_line k v : len (signed_line k v) = 7 + len k + len v + 2.
Proof.
  unfold signed_line. rewrite !len_append.
  change (len "openid.") with 7. change (len ":") with 1.
  change (len LF) with 1. lia.
Qed.

Lemma len_concat_all_cons s (l : list string) :
  len (concat_all (s :: l)) = len s + len (concat_all l).
Proof. unfold concat_all. cbn [foldr]. apply len_append. Qed.

Lemma SignedString_size_value f fields (n n' : Z) :
  keyvalue.SignedString_size f fields n = Some n' →
  n' = n + len (concat_all
                  (map (fun k => signed_line k (keyvalue.Get f k)) fields)).
Proof.
  revert n. induction fields as [|k fields IH]; intros n H.
  - simpl in *. change (len "") with 0. inversion H. lia.
  - simpl in H. destruct (index f k) as [v|] eqn:E; [|discriminate H].
    destruct (len v =? 0); [discriminate H|].
    apply IH in H. cbn [map]. rewrite len_concat_all_cons, len_signed_line.
    rewrite (Get_spec f k), E. simpl.
    change (len keyvalue.prefix) with 7 in H.
    change (utf8.RuneLen keyvalue.colon) with 1 in H.
    change (len keyvalue.newline) with 1 in H. lia.
Qed.

(** X6. When the first loop of [SignedString] runs to its end on a Form
    that is not empty, the size it has computed is the length of the
    string returned. *)
Theorem SignedString_size_exact f fields (n : Z) :
  entries f ≠ ∅ →
  keyvalue.SignedString_size f fields 0 = Some n →
  ∃ out, keyvalue.SignedString (keyvalue.mkSignedForm f fields) = Ret out
         ∧ len out = n.
Proof.
  intros He Hsz.
  assert (Hnil : is_nil f = false)
    by (destruct f; [reflexivity | now destruct He]).
  eexists. split.
  - apply SignedString_signable; [exact Hnil | exact He |].
    now apply (SignedString_size_Some f fields 0 n).
  - apply SignedString_size_value in Hsz. lia.
Qed.

Lemma SignedString_size_exact_witness :
  ∃ out, keyvalue.SignedString
           (keyvalue.mkSignedForm (Some foo_santa) ["santa"; "foo"]) = Ret out
         ∧ len out = 34.
Proof.
  apply SignedString_size_exact.
  - unfold foo_santa. simpl. apply insert_non_empty.
  - vm_compute. reflexivity.
Defined.

Lemma SignedFields_is_join (s : keyvalue.SignedForm) :
  keyvalue.SignedFields s = Ret (join "," (keyvalue.Fields s)).
Proof.
  destruct s as [f fields]. unfold keyvalue.SignedFields.
  cbn [keyvalue.Fields].
  destruct fields as [|k fields]; [reflexivity|].
  assert (Hlen : (0 < length (k :: fields))%nat) by (simpl; lia).
  assert (Hl : k :: fields ≠ []) by discriminate.
  generalize dependent (k :: fields). clear k fields. intros l Hlen Hl.
  destruct (Z.of_nat (length l) =? 0) eqn:E; [apply Z.eqb_eq in E; lia|].
  change (utf8.RuneLen keyvalue.comma) with 1.
  pose proof (fold_len_nonneg l).
  rewrite Grow_nonneg by lia. cbn [bind].
  rewrite SignedFields_loop; [reflexivity | exact Hl |].
  change (Buffer.Len Buffer.empty) with 0. lia.
Qed.

Lemma len_join fields :
  fields ≠ [] → len (join "," fields) = SignedFields_size fields.
Proof.
  unfold SignedFields_size. change (utf8.RuneLen keyvalue.comma) with 1.
  induction fields as [|k fields IH]; intros Hne; [contradiction|].
  destruct fields as [|k' fields].
  - simpl. lia.
  - change (join "," (k :: k' :: fields))
      with (k +:+ "," +:+ join "," (k' :: fields)).
    rewrite !len_append, IH by discriminate. change (len ",") with 1.
    cbn [fold_left length]. rewrite (fold_len_shift fields (0 + len k + len k')).
    rewrite (fold_len_shift fields (0 + len k')). lia.
Qed.

(** X7. For a list of fields that is not empty, the size [SignedFields]
    computes before writing is the length of the string it returns: the test
    of the buffer length against that size puts a comma after every field
    but the last. *)
Theorem SignedFields_size_exact (s : keyvalue.SignedForm) :
  keyvalue.Fields s ≠ [] →
  ∃ out, keyvalue.SignedFields s = Ret out
         ∧ len out = SignedFields_size (keyvalue.Fields s).
Proof.
  intros Hne. eexists. split; [apply SignedFields_is_join|].
  now apply len_join.
Qed.

Lemma SignedFields_size_exact_witness :
  ∃ out, keyvalue.SignedFields (keyvalue.mkSignedForm None [""; ""; "a"])
         = Ret out
         ∧ len out = 3.
Proof.
  apply (SignedFields_size_exact (keyvalue.mkSignedForm None [""; ""; "a"])).
  discriminate.
Defined.

End Preallocation.

(** ** What an error of Validate says, and how validity moves with Set and Del *)

Section ValidateReports.

Implicit Types (f : gomap) (m : gmap string string) (k v key value : string).
Implicit Types (order : list (string * string)) (e : keyvalue.error).

Lemma Validate_entry_reported k v e :
  keyvalue.Validate_entry k v = Some e → reported e k v.
Proof.
  unfold keyvalue.Validate_entry.
  destruct (len v =? 0) eqn:El;
    [intros H; inversion H; simpl; now apply len_eqb_zero in El|].
  destruct (utf8.ValidString k) eqn:Ek; [|intros H; now inversion H].
  destruct (utf8.ValidString v) eqn:Ev; [|intros H; now inversion H].
  cbn [negb]. rewrite !ContainsRune_contains by lia.
  rewrite !IsSpace_first, !IsSpace_last by assumption.
  destruct (contains k 10) eqn:E1; [intros H; inversion H; simpl; auto|].
  destruct (contains k 58) eqn:E2; [intros H; inversion H; simpl; auto|].
  cbn [orb].
  destruct (ends_with_space k) eqn:E3; [intros H; inversion H; simpl; auto|].
  destruct (begins_with_space k) eqn:E4; [intros H; inversion H; simpl; auto|].
  destruct (ends_with_space v) eqn:E5; [intros H; inversion H; simpl; auto|].
  destruct (begins_with_space v) eqn:E6; [intros H; inversion H; simpl; auto|].
  discriminate.
Qed.

Lemma Validate_range_reported order e :
  keyvalue.Validate_range order = Some e →
  ∃ k v, (k, v) ∈ order ∧ reported e k v.
Proof.
  induction order as [|[k0 v0] order IH]; [discriminate|]. simpl.
  destruct (keyvalue.Validate_entry k0 v0) as [e0|] eqn:E.
  - intros H. inversion H; subst e0. exists k0, v0. split; [left|].
    now apply Validate_entry_reported.
  - intros H. destruct (IH H) as (k & v & Hin & Hrep).
    exists k, v. split; [now right | exact Hrep].
Qed.

(** X8. An error returned by [Validate] is about an entry of the Form and
    names the rule that entry breaks: the key quoted is a key of the Form
    and the value quoted is stored in it. For white space in a value the
    two messages are exchanged: the error whose message says beginning of
    value is returned when the value ends with white space, and the one
    that says end of value when it begins with white space. *)
Theorem Validate_error_reports_entry f e :
  keyvalue.Validate f (Some e) →
  ∃ k v, index f k = Some v ∧ reported e k v.
Proof.
  intros (order & Hr & Hv).
  destruct (Validate_range_reported order e Hv) as (k & v & Hin & Hrep).
  exists k, v. split; [now apply (ranges_elem f order) | exact Hrep].
Qed.

Lemma Validate_error_reports_entry_witness :
  ∃ k v, index (Some {[ "foo" := "bar " ]}) k = Some v
         ∧ reported (keyvalue.WhitespaceAtBeginningOfValue "bar ") k v.
Proof.
  apply Validate_error_reports_entry.
  exists [("foo", "bar ")]. split; [|vm_compute; reflexivity].
  unfold ranges. simpl. now rewrite map_to_list_singleton.
Defined.

(** X9. Validity moves with the accessors: removing an entry from a valid
    Form leaves it valid; setting, on a valid Form that is not nil, a key
    and a value that meet the rules leaves it valid; and after setting a
    key and a value that break a rule [Validate] returns an error. *)
Theorem Validate_after_Set_Del f key value :
  (∀ err, keyvalue.Validate f None →
          keyvalue.Validate (keyvalue.Del f key) err → err = None)
  ∧ (∀ f' err, keyvalue.Validate f None → violates key value = false →
               keyvalue.Set_ f key value = Ret f' →
               keyvalue.Validate f' err → err = None)
  ∧ (∀ f' err, violates key value = true →
               keyvalue.Set_ f key value = Ret f' →
               keyvalue.Validate f' err → err ≠ None).
Proof.
  split; [|split].
  - intros err Hv Hd. apply (Validate_ok _ _ Hd). intros k v Hkv.
    apply (proj1 (Validate_ok _ _ Hv) eq_refl k v).
    destruct f as [m|]; [|now rewrite index_nil in Hkv].
    unfold index in *. simpl in *. apply lookup_delete_Some in Hkv. tauto.
  - intros f' err Hv Hok Hset Hv'. apply (Validate_ok _ _ Hv'). intros k v Hkv.
    destruct f as [m|]; [|discriminate Hset]. inversion Hset; subst f'.
    unfold index in Hkv. simpl in Hkv.
    apply lookup_insert_Some in Hkv as [[<- <-] | [Hne Hkv]]; [exact Hok|].
    now apply (proj1 (Validate_ok _ _ Hv) eq_refl k v).
  - intros f' err Hbad Hset Hv' Herr.
    destruct f as [m|]; [|discriminate Hset]. inversion Hset; subst f'.
    rewrite (proj1 (Validate_ok _ _ Hv') Herr key value) in Hbad;
      [discriminate|].
    unfold index. simpl. apply lookup_insert_eq.
Qed.

Lemma Validate_after_Set_Del_witness :
  keyvalue.Validate_range (map_to_list (<[ "mode" := "error" ]> foo_bar))
  = None.
Proof.
  apply (proj1 (proj2 (Validate_after_Set_Del (Some foo_bar) "mode" "error"))
           (Some (<[ "mode" := "error" ]> foo_bar))).
  - exists (map_to_list foo_bar).
    split; [apply (ranges_exists (Some foo_bar)) | vm_compute; reflexivity].
  - vm_compute. reflexivity.
  - reflexivity.
  - exists (map_to_list (<[ "mode" := "error" ]> foo_bar)).
    split; [|reflexivity].
    apply ranges_Some.
Defined.

End ValidateReports.

(** ** What is written is UTF-8 *)

Section WrittenUtf8.

Implicit Types (f : gomap) (k v s t : string) (fields : list string).

Lemma ValidString_append s t :
  utf8.ValidString s = true → utf8.ValidString t = true →
  utf8.ValidString (s +:+ t) = true.
Proof.
  unfold utf8.ValidString. intros Hs Ht.
  rewrite bytes_app, Valid_app by (apply bytes_range || exact Hs). exact Ht.
Qed.

Lemma ValidString_concat_all (l : list string) :
  Forall (fun s => utf8.ValidString s = true) l →
  utf8.ValidString (concat_all l) = true.
Proof.
  induction 1 as [|s l Hs _ IH]; [reflexivity|].
  unfold concat_all in *. cbn [foldr]. now apply ValidString_append.
Qed.

Lemma violates_valid k v :
  violates k v = false →
  utf8.ValidString k = true ∧ utf8.ValidString v = true.
Proof.
  intros H. apply violates_rules in H as [Hk Hv].
  unfold key_ok in Hk. unfold value_ok in Hv.
  repeat (apply andb_true_iff in Hk as [Hk ?]).
  repeat (apply andb_true_iff in Hv as [Hv ?]). auto.
Qed.

(** X10. What a valid Form writes is valid UTF-8: when [Validate] returns
    no error, the string returned by [String], and the string returned by
    [SignedString] for any list of fields, are valid UTF-8. *)
Theorem valid_Form_writes_UTF8 f :
  keyvalue.Validate f None →
  (∀ out, keyvalue.String f (Ret out) → utf8.ValidString out = true)
  ∧ (∀ fields out,
       keyvalue.SignedString (keyvalue.mkSignedForm f fields) = Ret out →
       utf8.ValidString out = true).
Proof.
  intros Hv. pose proof (proj1 (Validate_ok f None Hv) eq_refl) as Hok. split.
  - intros out Hs. apply String_outcome in Hs as (order & Hr & Hout).
    inversion Hout; subst out. apply ValidString_concat_all.
    apply Forall_map, Forall_forall. intros [k v] Hin.
    apply (ranges_elem f order k v Hr) in Hin.
    destruct (violates_valid k v (Hok k v Hin)) as [Hk Hvv].
    unfold line. simpl.
    repeat apply ValidString_append; auto.
  - intros fields out Hs.
    destruct (is_nil f) eqn:Hnil;
      [rewrite SignedString_returns_empty in Hs by (now left);
       inversion Hs; reflexivity|].
    destruct (decide (entries f = ∅)) as [He | He];
      [rewrite SignedString_returns_empty in Hs by (right; now left);
       inversion Hs; reflexivity|].
    destruct (keyvalue.SignedString_size f fields 0) as [n|] eqn:Esz.
    + pose proof (SignedString_size_Some _ _ _ _ Esz) as Hall.
      rewrite SignedString_signable in Hs by auto.
      inversion Hs; subst out. apply ValidString_concat_all.
      apply Forall_map, Forall_forall. intros k Hin.
      destruct (Hall k Hin) as (v & Hkv & _).
      destruct (violates_valid k v (Hok k v Hkv)) as [Hk Hvv].
      rewrite Get_spec, Hkv. simpl. unfold signed_line.
      repeat apply ValidString_append; auto.
    + apply SignedString_size_None in Esz.
      rewrite SignedString_returns_empty in Hs by tauto.
      inversion Hs; reflexivity.
Qed.

Lemma valid_Form_writes_UTF8_witness :
  utf8.ValidString ("foo:bar" +:+ LF) = true.
Proof.
  apply (proj1 (valid_Form_writes_UTF8 (Some foo_bar)
    (ex_intro _ (map_to_list foo_bar)
       (conj (ranges_exists (Some foo_bar)) eq_refl)))).
  exists (map_to_list foo_bar), (map_to_list foo_bar).
  split; [apply (ranges_exists (Some foo_bar))|].
  split; [apply (ranges_exists (Some foo_bar))|]. vm_compute. reflexivity.
Defined.

End WrittenUtf8.

(** ** Reading the lines back *)

Section ReadingBack.

Implicit Types (f : gomap) (k v s t : string).
Implicit Types (order : list (string * string)).

Lemma bytes_inj s t : bytes s = bytes t → s = t.
Proof.
  intros H. rewrite <- (of_bytes_bytes s), <- (of_bytes_bytes t). now rewrite H.
Qed.

Lemma free_of_not_in (c : Z) s : free_of c s ↔ ¬ In c (bytes s).
Proof.
  unfold free_of, contains. split.
  - intros H Hin. apply not_true_iff_false in H. apply H.
    apply existsb_exists. exists c. split; [exact Hin | apply Z.eqb_refl].
  - intros H. apply not_true_iff_false. intros Hex.
    apply existsb_exists in Hex as (b & Hin & Hb).
    apply Z.eqb_eq in Hb. now subst b.
Qed.

Lemma split_at_first (c : Z) (a a' x x' : list Z) :
  ¬ In c a → ¬ In c a' → a ++ c :: x = a' ++ c :: x' → a = a' ∧ x = x'.
Proof.
  revert a'. induction a as [|b a IH]; intros [|b' a'] Ha Ha' H; simpl in *.
  - inversion H. auto.
  - inversion H; subst. tauto.
  - inversion H; subst. tauto.
  - inversion H; subst. destruct (IH a') as [-> ->]; auto.
Qed.

Lemma bytes_line_cons (kv : string * string) (l : list string) :
  bytes (concat_all (line kv :: l))
  = bytes (fst kv) ++ 0x3A :: (bytes (snd kv) ++ 0x0A :: bytes (concat_all l)).
Proof.
  unfold concat_all, line. cbn [foldr].
  rewrite !bytes_app. change (bytes ":") with [0x3A].
  change (bytes LF) with [0x0A].
  rewrite <- !app_assoc. reflexivity.
Qed.

(** The lines of entries whose keys hold no colon and whose values hold
    no newline can be read back in one way only. *)
Lemma lines_read_back order order' :
  (∀ k v, (k, v) ∈ order → free_of 0x3A k ∧ free_of 0x0A v) →
  (∀ k v, (k, v) ∈ order' → free_of 0x3A k ∧ free_of 0x0A v) →
  concat_all (map line order) = concat_all (map line order') →
  order = order'.
Proof.
  revert order'. induction order as [|[k v] order IH];
    intros [|[k' v'] order'] Ho Ho' H.
  - reflexivity.
  - apply (f_equal bytes) in H. cbn [map] in H.
    rewrite bytes_line_cons in H. simpl in H.
    destruct (bytes k'); discriminate H.
  - apply (f_equal bytes) in H. cbn [map] in H.
    rewrite bytes_line_cons in H. simpl in H.
    destruct (bytes k); discriminate H.
  - apply (f_equal bytes) in H. cbn [map] in H.
    rewrite !bytes_line_cons in H. cbn [fst snd] in H.
    destruct (Ho k v) as [Hk Hv]; [left|].
    destruct (Ho' k' v') as [Hk' Hv']; [left|].
    apply free_of_not_in in Hk, Hv, Hk', Hv'.
    apply split_at_first in H as [Ek H]; [|assumption..].
    apply split_at_first in H as [Ev H]; [|assumption..].
    apply bytes_inj in Ek, Ev, H. subst k' v'. f_equal.
    apply IH; [| | exact H].
    + intros k0 v0 Hin. apply Ho. now right.
    + intros k0 v0 Hin. apply Ho'. now right.
Qed.

Lemma violates_key_free k v : violates k v = false → free_of 0x3A k.
Proof.
  intros H. apply violates_rules in H as [Hk _]. unfold key_ok in Hk.
  repeat (apply andb_true_iff in Hk as [Hk ?]).
  unfold free_of. now apply negb_true_iff.
Qed.

Lemma two_entries_range :
  ranges (Some two_entries) [("a", "b"); ("c", "d")].
Proof.
  unfold ranges.
  assert (H : map_to_list two_entries = [("a", "b"); ("c", "d")]
              ∨ map_to_list two_entries = [("c", "d"); ("a", "b")])
    by (vm_compute; auto).
  change (entries (Some two_entries)) with two_entries.
  destruct H as [-> | ->]; [reflexivity | apply perm_swap].
Qed.

(** X11. The lines can be read back when no value holds a newline: two
    valid Forms whose values hold no newline and for which [String]
    returns the same string have the same entries. Without the condition
    on newlines this fails, [Validate] accepting them in values: a Form
    with one entry and a Form with two entries, both valid, are written
    as the same string. *)
Theorem String_read_back :
  (∀ f f' out,
     keyvalue.Validate f None → keyvalue.Validate f' None →
     (∀ k v, index f k = Some v → free_of 0x0A v) →
     (∀ k v, index f' k = Some v → free_of 0x0A v) →
     keyvalue.String f out → keyvalue.String f' out →
     entries f = entries f')
  ∧ (keyvalue.Validate (Some one_entry) None
     ∧ keyvalue.Validate (Some two_entries) None
     ∧ one_entry ≠ two_entries
     ∧ ∃ out, keyvalue.String (Some one_entry) out
              ∧ keyvalue.String (Some two_entries) out).
Proof.
  split.
  - intros f f' out Hv Hv' Hnl Hnl' Hs Hs'.
    pose proof (proj1 (Validate_ok f None Hv) eq_refl) as Hok.
    pose proof (proj1 (Validate_ok f' None Hv') eq_refl) as Hok'.
    apply String_outcome in Hs as (order & Hr & ->).
    apply String_outcome in Hs' as (order' & Hr' & Heq).
    inversion Heq as [Hlines]. clear Heq.
    assert (order = order') as <-.
    { apply lines_read_back; [| | exact Hlines].
      - intros k v Hin. apply (ranges_elem f order k v Hr) in Hin.
        split; [apply (violates_key_free k v) | apply (Hnl k v)]; auto.
      - intros k v Hin. apply (ranges_elem f' order' k v Hr') in Hin.
        split; [apply (violates_key_free k v) | apply (Hnl' k v)]; auto. }
    apply map_to_list_inj. unfold ranges in Hr, Hr'. now rewrite <- Hr, <- Hr'.
  - split; [|split; [|split]].
    + exists (map_to_list one_entry).
      split; [apply (ranges_exists (Some one_entry)) | vm_compute; reflexivity].
    + exists [("a", "b"); ("c", "d")].
      split; [apply two_entries_range | vm_compute; reflexivity].
    + intros H. apply (f_equal (fun m => m !! "c")) in H.
      vm_compute in H. discriminate H.
    + exists (Ret ("a:b" +:+ LF +:+ "c:d" +:+ LF)).
      split.
      * exists (map_to_list one_entry), (map_to_list one_entry).
        split; [apply (ranges_exists (Some one_entry))|].
        split; [apply (ranges_exists (Some one_entry))|].
        vm_compute. reflexivity.
      * exists [("a", "b"); ("c", "d")], [("a", "b"); ("c", "d")].
        split; [apply two_entries_range|].
        split; [apply two_entries_range|].
        vm_compute. reflexivity.
Qed.

Lemma String_read_back_witness :
  entries (Some foo_bar) = entries (Some (delete "santa" foo_santa)).
Proof.
  assert (Hd : delete "santa" foo_santa = foo_bar)
    by (apply map_eq; intros i; unfold foo_santa, foo_bar;
        destruct (decide (i = "santa")) as [-> | Hne];
        [rewrite lookup_delete_eq; reflexivity
        | rewrite lookup_delete_ne, lookup_insert_ne by congruence;
          reflexivity]).
  assert (Hfree : ∀ k v, index (Some foo_bar) k = Some v → free_of 0x0A v).
  { intros k v Hkv. unfold index, foo_bar in Hkv. simpl in Hkv.
    apply lookup_singleton_Some in Hkv as [<- <-]. vm_compute. reflexivity. }
  assert (Hval : keyvalue.Validate (Some foo_bar) None).
  { exists (map_to_list foo_bar).
    split; [apply (ranges_exists (Some foo_bar)) | vm_compute; reflexivity]. }
  assert (Hstr : keyvalue.String (Some foo_bar)
                   (Ret ("foo:bar" +:+ LF))).
  { exists (map_to_list foo_bar), (map_to_list foo_bar).
    split; [apply (ranges_exists (Some foo_bar))|].
    split; [apply (ranges_exists (Some foo_bar))|]. vm_compute. reflexivity. }
  apply (proj1 String_read_back (Some foo_bar)
           (Some (delete "santa" foo_santa))
           (Ret ("foo:bar" +:+ LF)));
    rewrite ?Hd; assumption.
Defined.

End ReadingBack.

(** ** The list of signed fields read back *)

Section FieldsReadBack.

Implicit Types (f : gomap) (k s t : string) (fields : list string).

Lemma bytes_join_cons k k' fields :
  bytes (join "," (k :: k' :: fields))
  = bytes k ++ 0x2C :: bytes (join "," (k' :: fields)).
Proof.
  change (join "," (k :: k' :: fields))
    with (k +:+ "," +:+ join "," (k' :: fields)).
  rewrite !bytes_app. reflexivity.
Qed.

Lemma join_read_back fields fields' :
  fields ≠ [] → fields' ≠ [] →
  Forall (free_of 0x2C) fields → Forall (free_of 0x2C) fields' →
  join "," fields = join "," fields' → fields = fields'.
Proof.
  revert fields'. induction fields as [|k fields IH];
    intros [|k' fields'] Hne Hne' Hf Hf' H; try contradiction.
  apply Forall_cons in Hf as [Hk Hf]. apply Forall_cons in Hf' as [Hk' Hf'].
  apply free_of_not_in in Hk, Hk'. apply (f_equal bytes) in H.
  destruct fields as [|k2 fields], fields' as [|k2' fields'].
  - apply bytes_inj in H. change (k = k') in H. now subst.
  - rewrite bytes_join_cons in H. cbn [join] in H.
    exfalso. apply Hk. rewrite H. apply in_or_app. right. left. reflexivity.
  - rewrite bytes_join_cons in H. cbn [join] in H.
    exfalso. apply Hk'. rewrite <- H. apply in_or_app. right. left. reflexivity.
  - rewrite !bytes_join_cons in H.
    apply split_at_first in H as [Ek H]; [|assumption..].
    apply bytes_inj in Ek, H. subst k'. f_equal.
    apply IH; [discriminate | discriminate | assumption..].
Qed.

(** X12. The list of signed fields can be read back from the string
    [SignedFields] returns when the list is not empty and no name holds a
    comma: two such lists with the same string are the same list. The
    conditions are needed: the empty list and the list of one empty name
    both give the empty string, and a name with a comma gives the string
    of the two names it spells. *)
Theorem SignedFields_read_back f f' :
  (∀ fields fields',
     fields ≠ [] → fields' ≠ [] →
     Forall (free_of 0x2C) fields → Forall (free_of 0x2C) fields' →
     keyvalue.SignedFields (keyvalue.mkSignedForm f fields)
     = keyvalue.SignedFields (keyvalue.mkSignedForm f' fields') →
     fields = fields')
  ∧ keyvalue.SignedFields (keyvalue.mkSignedForm f [])
    = keyvalue.SignedFields (keyvalue.mkSignedForm f' [""])
  ∧ keyvalue.SignedFields (keyvalue.mkSignedForm f ["a,b"])
    = keyvalue.SignedFields (keyvalue.mkSignedForm f' ["a"; "b"]).
Proof.
  split; [|split; reflexivity].
  intros fields fields' Hne Hne' Hf Hf' H.
  rewrite !SignedFields_is_join in H. cbn [keyvalue.Fields] in H.
  inversion H as [Hj]. now apply join_read_back.
Qed.

Lemma SignedFields_read_back_witness : ["santa"; "foo"] = ["santa"; "foo"].
Proof.
  apply (proj1 (SignedFields_read_back (Some foo_santa) None));
    try discriminate; try reflexivity;
    repeat constructor.
Defined.

End FieldsReadBack.

(** ** Writing a Form to a writer *)

Section WriteForm.

Context {W : Type} `{io.Writer W}.

Implicit Types (f : gomap).


End WriteForm.




(** ** Signing every field *)

Section SignAll.

Implicit Types (f : gomap) (order : list (string * string)).

(** X15. Signing all the fields: when the list of fields is the keys of a
    Form as some [range] yields them, the Form is not empty and no value
    is empty, [SignedString] returns the lines [String] writes for that
    order, each with the prefix in front. *)
Theorem SignedString_of_all_keys f order :
  ranges f order → order ≠ [] →
  (∀ k v, (k, v) ∈ order → v ≠ "") →
  keyvalue.SignedString (keyvalue.mkSignedForm f (map fst order))
  = Ret (concat_all (map (fun kv => "openid." +:+ line kv) order)).
Proof.
  intros Hr Hne Hval.
  assert (He : entries f ≠ ∅).
  { intros E. unfold ranges in Hr. rewrite E, map_to_list_empty in Hr.
    apply Permutation_nil_r in Hr. contradiction. }
  assert (Hnil : is_nil f = false)
    by (destruct f; [reflexivity | now destruct He]).
  rewrite SignedString_signable; [| exact Hnil | exact He |].
  - f_equal. f_equal. rewrite map_map. apply map_ext_in. intros [k v] Hin.
    apply list_elem_of_In, (ranges_elem f order k v Hr) in Hin.
    rewrite Get_spec. cbn [fst]. rewrite Hin. reflexivity.
  - intros k Hk. apply list_elem_of_fmap in Hk as ([k' v] & -> & Hin).
    exists v. split; [now apply (ranges_elem f order k' v Hr)|].
    now apply (Hval k' v).
Qed.

Lemma SignedString_of_all_keys_witness :
  keyvalue.SignedString
    (keyvalue.mkSignedForm (Some foo_bar) (map fst (map_to_list foo_bar)))
  = Ret (concat_all
           (map (fun kv => "openid." +:+ line kv) (map_to_list foo_bar))).
Proof.
  assert (Hl : map_to_list foo_bar = [("foo", "bar")])
    by apply map_to_list_singleton.
  apply SignedString_of_all_keys.
  - apply ranges_Some.
  - rewrite Hl. discriminate.
  - rewrite Hl. intros k v Hin. apply list_elem_of_singleton in Hin.
    inversion Hin. discriminate.
Defined.

End SignAll.
